(** * Periodic advection-diffusion with the implicit theta method

    A shallow embedding of [paradiag/advection/serial.ipynb]: the
    finite-difference stencil table [gradient_stencil], the periodic
    matrix assembly [sparse_circulant], the implicit theta-method
    operators [A0], [A1] with the prefactored solve of [A1], and the
    sequential time-marching loop.

    Numbers.  The notebook computes in IEEE double precision.  Here every
    real quantity is an exact rational ([Qc], canonical fractions with
    Leibniz equality), so equalities below are exact statements about the
    arithmetic the program performs, not about rounding.  Rounding,
    overflow and underflow are not modelled; in particular the exact
    elimination finds a zero pivot exactly for a singular matrix, which
    SuperLU in double precision need not.  The statements about values
    are therefore made for runs whose cells have returned, and those that
    need [A1] to be invertible take it as a hypothesis.

    Library calls.  [numpy] arrays are lists; a [scipy.sparse] matrix is
    represented by its shape and its dense content (what [toarray()]
    returns), since the storage format (DIA, CSR, CSC) does not change the
    entries.  [scipy.sparse.spdiags] is modelled with the checks of the
    DIA constructor, and [scipy.sparse.linalg.factorized] by an exact
    elimination solver. *)

From Stdlib Require Import List ZArith QArith Qcanon Lia Bool Arith Permutation.
Import ListNotations.

Local Open Scope Qc_scope.

(** ** Exceptions and the error monad *)

(** The Python exceptions the modelled code can raise. *)
Inductive exn : Type :=
| KeyError (key : Z)          (* dictionary lookup of a missing key *)
| ValueError                  (* numpy / scipy shape and format checks *)
| IndexError                  (* array index out of bounds *)
| ZeroDivisionError           (* Python float division by zero *)
| RuntimeError.               (* SuperLU: factor is exactly singular *)

Inductive result (A : Type) : Type :=
| OK (a : A)
| Raise (e : exn).
Arguments OK {A} a.
Arguments Raise {A} e.

Definition bind {A B : Type} (r : result A) (k : A -> result B) : result B :=
  match r with
  | OK a => k a
  | Raise e => Raise e
  end.

Notation "x <- c ;; k" := (bind c (fun x => k))
  (at level 61, c at next level, right associativity).

(** ** Scalars and vectors *)

(** The literal [a/b] of the source, as an exact fraction. *)
Definition frac (a : Z) (b : positive) : Qc := Q2Qc (a # b).

Definition vector := list Qc.

(** [np.sum] of a one-dimensional array. *)
Definition vsum (v : vector) : Qc := fold_right Qcplus 0 v.

(** ** Stencil table *)

(** [gradient_stencil(grad, order)]: a nested dictionary literal indexed
    first by [grad], then by [order].  A missing key raises [KeyError]
    with that key. *)
Definition gradient_stencil (grad order : Z) : result vector :=
  match grad with
  | 1%Z => (* first gradient *)
      match order with
      | 2%Z => OK [frac (-1) 2; 0; frac 1 2]
      | 4%Z => OK [frac 1 12; frac (-2) 3; 0; frac 2 3; frac (-1) 12]
      | 6%Z => OK [frac (-1) 60; frac 3 20; frac (-3) 4; 0;
                   frac 3 4; frac (-3) 20; frac 1 60]
      | _ => Raise (KeyError order)
      end
  | 2%Z => (* second gradient *)
      match order with
      | 2%Z => OK [1; frac (-2) 1; 1]
      | 4%Z => OK [frac (-1) 12; frac 4 3; frac (-5) 2; frac 4 3; frac (-1) 12]
      | 6%Z => OK [frac 1 90; frac (-3) 20; frac 3 2; frac (-49) 18;
                   frac 3 2; frac (-3) 20; frac 1 90]
      | _ => Raise (KeyError order)
      end
  | 4%Z => (* fourth gradient *)
      match order with
      | 2%Z => OK [1; frac (-4) 1; frac 6 1; frac (-4) 1; 1]
      | 4%Z => OK [frac (-1) 6; frac 2 1; frac (-13) 2; frac 28 3;
                   frac (-13) 2; frac 2 1; frac (-1) 6]
      | 6%Z => OK [frac 7 240; frac (-2) 5; frac 169 60; frac (-122) 15;
                   frac 91 8; frac (-122) 15; frac 169 60; frac (-2) 5;
                   frac 7 240]
      | _ => Raise (KeyError order)
      end
  | _ => Raise (KeyError grad)
  end.

(** The keys present in the table. *)
Definition supported (grad order : Z) : Prop :=
  (grad = 1 \/ grad = 2 \/ grad = 4)%Z /\ (order = 2 \/ order = 4 \/ order = 6)%Z.

(** ** Sparse matrices *)

(** A [scipy.sparse] matrix: its shape and its rows. *)
Record spmatrix : Type := mk_spmatrix {
  shape : nat * nat;
  rows : list (list Qc)
}.

Definition nrows (A : spmatrix) : nat := fst (shape A).
Definition ncols (A : spmatrix) : nat := snd (shape A).

(** [A[i, j]]; entries outside the stored rows read as zero. *)
Definition entry (A : spmatrix) (i j : nat) : Qc := nth j (nth i (rows A) []) 0.

(** The [m]-by-[n] matrix with entries [f i j]. *)
Definition tabulate (m n : nat) (f : nat -> nat -> Qc) : spmatrix :=
  mk_spmatrix (m, n) (map (fun i => map (f i) (seq 0 n)) (seq 0 m)).

(** [sum(f(j) for j in range(n))]. *)
Definition bigsum (n : nat) (f : nat -> Qc) : Qc := vsum (map f (seq 0 n)).

(** Entry [(i, j)] of the matrix stored by diagonals: the diagonal with
    offset [k] holds [A[i, i+k] = diag[i+k]], and the contributions of
    the stored diagonals are added up, as [dia_matvec] does. *)
Definition dia_entry (data : list (list Qc)) (offsets : list Z) (i j : nat) : Qc :=
  vsum (map (fun od : Z * list Qc =>
               if (fst od =? Z.of_nat j - Z.of_nat i)%Z then nth j (snd od) 0 else 0)
            (combine offsets data)).

(** [len(np.unique(offsets)) != len(offsets)]. *)
Fixpoint has_duplicates (l : list Z) : bool :=
  match l with
  | [] => false
  | x :: t => existsb (Z.eqb x) t || has_duplicates t
  end.

(** [scipy.sparse.spdiags(data, diags)] with [m] and [n] omitted: the
    matrix is square of size [len(data[0])].  The DIA constructor raises
    [ValueError] when the number of diagonals differs from the number of
    offsets, and when the offset array contains duplicate values.  [data]
    is a rectangular two-dimensional array at both call sites. *)
Definition spdiags (data : list (list Qc)) (diags : list Z) : result spmatrix :=
  match data with
  | [] => Raise IndexError
  | row0 :: _ =>
      let n := length row0 in
      if negb (length data =? length diags)%nat then Raise ValueError
      else if has_duplicates diags then Raise ValueError
      else OK (tabulate n n (dia_entry data diags))
  end.

(** [sparse_circulant(stencil, n)].

    A stencil of even length (or empty) makes one of the slice assignments
    into [pstencil] fail with [ValueError] (for the empty stencil already
    [np.zeros] of a negative size); for an odd length [ns = 2*noff+1]
    the three slice assignments fill [pstencil] and [offsets] with the
    concatenations below. *)
Definition sparse_circulant (stencil : vector) (n : nat) : result spmatrix :=
  match stencil with
  | [c] => spdiags [map (Qcmult c) (repeat 1 n)] [0%Z]
  | _ =>
      (* extend stencil to include periodic overlaps *)
      let ns := length stencil in
      let noff := ((ns - 1) / 2)%nat in
      if Nat.even ns then Raise ValueError
      else
        let pstencil :=
          skipn (noff + 1) stencil      (* pstencil[:noff]      = stencil[noff+1:] *)
          ++ stencil                    (* pstencil[noff:-noff] = stencil          *)
          ++ firstn noff stencil in     (* pstencil[-noff:]     = stencil[:noff]   *)
        (* constant diagonals of stencil entries *)
        let pdiags := map (fun c => repeat c n) pstencil in
        (* offsets for inner domain and periodic overlaps *)
        let offsets :=
          map (fun i => (- Z.of_nat n + 1 + Z.of_nat i)%Z) (seq 0 noff)
          ++ map (fun i => (- Z.of_nat noff + Z.of_nat i)%Z) (seq 0 (2 * noff + 1))
          ++ map (fun i => (Z.of_nat n - Z.of_nat noff + Z.of_nat i)%Z) (seq 0 noff) in
        spdiags pdiags offsets
  end.

(** *** Arithmetic of sparse matrices *)

(** [c * A]. *)
Definition smul (c : Qc) (A : spmatrix) : spmatrix :=
  tabulate (nrows A) (ncols A) (fun i j => c * entry A i j).

(** [-A]. *)
Definition sneg (A : spmatrix) : spmatrix :=
  tabulate (nrows A) (ncols A) (fun i j => - entry A i j).

(** [A / c] for a Python float [c]: scipy multiplies by [1./c], which
    raises [ZeroDivisionError] when [c] is zero. *)
Definition sdiv (A : spmatrix) (c : Qc) : result spmatrix :=
  if Qc_eq_dec c 0 then Raise ZeroDivisionError else OK (smul (1 / c) A).

Definition same_shape (A B : spmatrix) : bool :=
  ((nrows A =? nrows B) && (ncols A =? ncols B))%nat.

(** [A + B]; [ValueError] on inconsistent shapes. *)
Definition sadd (A B : spmatrix) : result spmatrix :=
  if same_shape A B
  then OK (tabulate (nrows A) (ncols A) (fun i j => entry A i j + entry B i j))
  else Raise ValueError.

(** [A - B]; [ValueError] on inconsistent shapes. *)
Definition ssub (A B : spmatrix) : result spmatrix :=
  if same_shape A B
  then OK (tabulate (nrows A) (ncols A) (fun i j => entry A i j - entry B i j))
  else Raise ValueError.

(** [A.dot(q)] for a one-dimensional [q]; [ValueError] on a dimension
    mismatch. *)
Definition dot (A : spmatrix) (q : vector) : result vector :=
  if (length q =? ncols A)%nat
  then OK (map (fun i => bigsum (ncols A) (fun j => entry A i j * nth j q 0))
               (seq 0 (nrows A)))
  else Raise ValueError.

(** [-v] for an array [v]. *)
Definition vneg (v : vector) : vector := map Qcopp v.

(** Python float division [a / b]. *)
Definition pydiv (a b : Qc) : result Qc :=
  if Qc_eq_dec b 0 then Raise ZeroDivisionError else OK (a / b).

(** ** The finite difference matrices of the notebook *)

(** [M = sparse_circulant([1], nx)]. *)
Definition mass_matrix (nx : nat) : result spmatrix :=
  sparse_circulant [1] nx.

(** [sparse_circulant(gradient_stencil(grad, order), nx)]: the stencil is
    looked up first, so a missing key is raised before the assembly
    starts. *)
Definition stencil_matrix (grad order : Z) (nx : nat) : result spmatrix :=
  stencil <- gradient_stencil grad order ;;
  sparse_circulant stencil nx.

(** [D = sparse_circulant(gradient_stencil(1, order=2), nx)]. *)
Definition advection_matrix (nx : nat) : result spmatrix := stencil_matrix 1 2 nx.

(** [L = sparse_circulant(gradient_stencil(2, order=2), nx)]. *)
Definition diffusion_matrix (nx : nat) : result spmatrix := stencil_matrix 2 2 nx.

(** [K = (u/dx)*D - (nu/dx**2)*L]; both divisions raise
    [ZeroDivisionError] for [dx = 0] (the underflow or overflow of
    [dx**2] in double precision is not modelled). *)
Definition spatial_terms (u nu dx : Qc) (D L : spmatrix) : result spmatrix :=
  cu <- pydiv u dx ;;
  cv <- pydiv nu (dx * dx) ;;
  ssub (smul cu D) (smul cv L).

(** ** The prefactored solve *)

(** [spla.factorized(A)] factors the square matrix [A] once and returns a
    function solving [A x = b] for any number of right hand sides; SuperLU
    raises [RuntimeError] when the factor is exactly singular.  The
    elimination is modelled in exact arithmetic: the factor object keeps,
    for every unit vector, the solution found by Gaussian elimination with
    row pivoting, and a solve combines these stored columns.  In exact
    arithmetic a zero pivot appears exactly when the matrix is singular;
    in double precision SuperLU can find a tiny non-zero pivot for a
    singular matrix, and a zero pivot for a nonsingular matrix whose
    rounded entries are singular.  Which builds raise is therefore not
    read off this model: the properties below are stated for systems that
    have been built, with the nonsingularity of [A1] as a hypothesis where
    the exact solution is used. *)

(** One linear equation [a . x = b]. *)
Definition equation : Type := (vector * Qc)%type.

Definition dotp (a x : vector) : Qc :=
  vsum (map (fun p : Qc * Qc => fst p * snd p) (combine a x)).

(** First equation whose leading coefficient is not zero, and the others. *)
Fixpoint find_pivot (eqs : list equation) : option (equation * list equation) :=
  match eqs with
  | [] => None
  | e :: rest =>
      if Qc_eq_dec (hd 0 (fst e)) 0
      then match find_pivot rest with
           | Some (p, others) => Some (p, e :: others)
           | None => None
           end
      else Some (e, rest)
  end.

(** Subtract [c] times the pivot equation and drop the leading unknown. *)
Definition eliminate (p : Qc) (pivot : equation) (e : equation) : equation :=
  let c := hd 0 (fst e) / p in
  (map (fun ab : Qc * Qc => fst ab - c * snd ab) (combine (tl (fst e)) (tl (fst pivot))),
   snd e - c * snd pivot).

(** Elimination on [n] unknowns followed by back substitution. *)
Fixpoint gauss (n : nat) (eqs : list equation) : option vector :=
  match n with
  | O => Some []
  | S n' =>
      match find_pivot eqs with
      | None => None
      | Some (pivot, others) =>
          let p := hd 0 (fst pivot) in
          match gauss n' (map (eliminate p pivot) others) with
          | None => None
          | Some xt => Some ((snd pivot - dotp (tl (fst pivot)) xt) / p :: xt)
          end
      end
  end.

Fixpoint sequence {A : Type} (l : list (option A)) : option (list A) :=
  match l with
  | [] => Some []
  | None :: _ => None
  | Some a :: t =>
      match sequence t with
      | Some r => Some (a :: r)
      | None => None
      end
  end.

Definition unit_vector (n c : nat) : vector :=
  map (fun i => if (i =? c)%nat then 1 else 0) (seq 0 n).

(** [A.tocsc()]: a change of storage format; the entries are kept. *)
Definition tocsc (A : spmatrix) : spmatrix :=
  tabulate (nrows A) (ncols A) (entry A).

(** The object a factorization leaves behind. *)
Record factor : Type := mk_factor {
  order : nat;
  columns : list vector      (* columns[c] solves A x = e_c *)
}.

(** The factorization itself. *)
Definition splu (A : spmatrix) : result factor :=
  if (nrows A =? ncols A)%nat
  then
    let n := nrows A in
    match sequence (map (fun c => gauss n (combine (rows A) (unit_vector n c)))
                        (seq 0 n)) with
    | Some cols => OK (mk_factor n cols)
    | None => Raise RuntimeError
    end
  else Raise ValueError.

(** Solving with a stored factorization; no elimination takes place. *)
Definition lu_solve (F : factor) (b : vector) : result vector :=
  if (length b =? order F)%nat
  then OK (map (fun j => bigsum (order F)
                           (fun c => nth j (nth c (columns F) []) 0 * nth c b 0))
               (seq 0 (order F)))
  else Raise ValueError.

(** *** Counting factorizations *)

(** Programs that may factor matrices: the state is the number of
    factorizations carried out so far. *)
Definition Prog (A : Type) : Type := nat -> result (A * nat).

Definition pbind {A B : Type} (c : Prog A) (k : A -> Prog B) : Prog B :=
  fun w =>
    match c w with
    | OK (a, w') => k a w'
    | Raise e => Raise e
    end.

(** A computation that factors nothing. *)
Definition lift {A : Type} (r : result A) : Prog A :=
  fun w =>
    match r with
    | OK a => OK (a, w)
    | Raise e => Raise e
    end.

Notation "x <~ c ;; k" := (pbind c (fun x => k))
  (at level 61, c at next level, right associativity).

(** [spla.factorized(A)]: one factorization; the returned closure only
    substitutes with the stored factor. *)
Definition factorized (A : spmatrix) : Prog (vector -> result vector) :=
  fun w =>
    match splu A with
    | OK F => OK (lu_solve F, S w)
    | Raise e => Raise e
    end.

(** ** The implicit system *)

(** The two matrices of the theta method; [solve] is the attribute the
    notebook attaches to [A1]. *)
Record ImplicitSystem : Type := mk_system {
  A0 : spmatrix;
  A1 : spmatrix;
  solve : vector -> result vector
}.

(** [A0 = -M/dt + (1 - theta)*K]. *)
Definition explicit_matrix (M K : spmatrix) (theta dt : Qc) : result spmatrix :=
  m <- sdiv (sneg M) dt ;;
  sadd m (smul (1 - theta) K).

(** [A1 = M/dt + theta*K]. *)
Definition implicit_matrix (M K : spmatrix) (theta dt : Qc) : result spmatrix :=
  m <- sdiv M dt ;;
  sadd m (smul theta K).

(** The cell
<<
    A0 = -M/dt + (1 - theta)*K
    A1 = M/dt + theta*K
    A1.solve = spla.factorized(A1.tocsc())
>> *)
Definition implicit_system (M K : spmatrix) (theta dt : Qc) : Prog ImplicitSystem :=
  a0 <~ lift (explicit_matrix M K theta dt) ;;
  a1 <~ lift (implicit_matrix M K theta dt) ;;
  s <~ factorized (tocsc a1) ;;
  lift (OK (mk_system a0 a1 s)).

(** ** Time marching *)

(** [q[i]] for a two-dimensional array [q]. *)
Definition getitem (q : list vector) (i : nat) : result vector :=
  match nth_error q i with
  | Some v => OK v
  | None => Raise IndexError
  end.

Fixpoint set_nth {A : Type} (l : list A) (i : nat) (a : A) : list A :=
  match l, i with
  | [], _ => []
  | _ :: t, O => a :: t
  | x :: t, S i' => x :: set_nth t i' a
  end.

(** [q[i] = v]: the row is overwritten when [v] has the length of a row,
    a single value is broadcast, any other length is a [ValueError]. *)
Definition setitem (q : list vector) (i : nat) (v : vector) : result (list vector) :=
  match nth_error q i with
  | None => Raise IndexError
  | Some old =>
      if (length v =? length old)%nat then OK (set_nth q i v)
      else match v with
           | [c] => OK (set_nth q i (repeat c (length old)))
           | _ => Raise ValueError
           end
  end.

(** [for i in range(start, start+count): s = body(i, s)]. *)
Fixpoint for_range {St : Type} (start count : nat)
    (body : nat -> St -> result St) (s : St) : result St :=
  match count with
  | O => OK s
  | S c => s' <- body start s ;; for_range (S start) c body s'
  end.

(** [np.zeros((m, n))]. *)
Definition zeros2 (m n : nat) : list vector := repeat (repeat 0 n) m.

(** The cell
<<
    q = np.zeros((nt+1, len(qinit)))
    q[0] = qinit
    for i in range(nt-1):
        q[i+1] = A1.solve(-A0.dot(q[i]))
>>
    For [nt = 0] Python's [range(-1)] is empty, and so is the range of
    length [0 - 1 = 0] over the naturals. *)
Definition timeseries (sys : ImplicitSystem) (qinit : vector) (nt : nat)
    : result (list vector) :=
  let q := zeros2 (nt + 1) (length qinit) in
  q <- setitem q 0 qinit ;;
  for_range 0 (nt - 1)
    (fun i q =>
       qi <- getitem q i ;;
       r <- dot (A0 sys) qi ;;
       x <- solve sys (vneg r) ;;
       setitem q (i + 1) x)
    q.

(** The cells from the matrices to the implicit system, for the values
    [nx], [u], [nu], [dx], [dt] and [theta] that the earlier cells leave
    in the notebook's global scope. *)
Definition notebook_system (nx : nat) (u nu dx dt theta : Qc) : Prog ImplicitSystem :=
  M <~ lift (mass_matrix nx) ;;
  D <~ lift (advection_matrix nx) ;;
  L <~ lift (diffusion_matrix nx) ;;
  K <~ lift (spatial_terms u nu dx D L) ;;
  implicit_system M K theta dt.


(** ** Quantities of the stated properties *)

(** The tolerance [1e-12]. *)
Definition tolerance : Qc := frac 1 (10 ^ 12).

(** [np.roll(q, s)]: the cyclic shift of [q] by [s] places, entry [i]
    moving to place [(i + s) mod n]. *)
Definition shift (q : vector) (s : Z) : vector :=
  map (fun i => nth (Z.to_nat ((Z.of_nat i - s) mod Z.of_nat (length q))) q 0)
      (seq 0 (length q)).

(** [A x = 0] only for [x = 0], on vectors of the size of [A]. *)
Definition nonsingular (A : spmatrix) : Prop :=
  forall x : vector,
    length x = ncols A ->
    dot A x = OK (repeat 0 (nrows A)) ->
    x = repeat 0 (ncols A).

(** The cyclic index [z mod n]. *)
Definition cyc (n : nat) (z : Z) : nat := Z.to_nat (z mod Z.of_nat n).

(** Row zero of the periodic matrix of a stencil of half-width [k]: the
    stencil's centre and right half sit at columns [0..k], its left half
    wraps to columns [n-k..n-1]. *)
Definition periodic_coeff (stencil : vector) (n m : nat) : Qc :=
  let k := ((length stencil - 1) / 2)%nat in
  (if (m <=? k)%nat then nth (k + m) stencil 0 else 0)
  + (if (n - k <=? m)%nat then nth (m + k - n) stencil 0 else 0).

(** The offsets [b, b+1, ..., b+m-1] of a block of adjacent diagonals. *)
Definition arith (b : Z) (m : nat) : list Z :=
  map (fun i => (b + Z.of_nat i)%Z) (seq 0 m).

(** The coefficient a block of constant diagonals starting at offset [b]
    puts on diagonal [d]. *)
Definition band (b : Z) (cs : vector) (d : Z) : Qc :=
  if ((b <=? d) && (d <? b + Z.of_nat (length cs)))%Z
  then nth (Z.to_nat (d - b)) cs 0
  else 0.

(** The equation [e] holds at [x]. *)
Definition satisfies (x : vector) (e : equation) : Prop := dotp (fst e) x = snd e.

(** One update of the loop body: [A1.solve(-A0.dot(v))]. *)
Definition step (sys : ImplicitSystem) (v : vector) : result vector :=
  r <- dot (A0 sys) v ;;
  solve sys (vneg r).

(** The array [q] after the iterations [0..m-1] of the loop: rows
    [1..m] hold the updates, the rows after them are still zero. *)
Definition marched (sys : ImplicitSystem) (n : nat) (qinit : vector) (nt : nat)
    (m : nat) (q : list vector) : Prop :=
  length q = (nt + 1)%nat /\
  (forall i, (i <= nt)%nat -> length (nth i q []) = n) /\
  nth 0 q [] = qinit /\
  (forall i, (i < m)%nat -> step sys (nth i q []) = OK (nth (i + 1) q [])) /\
  (forall j, (m < j <= nt)%nat -> nth j q [] = repeat 0 n).

(** ** Example configurations *)

(** The matrix a successful call returned. *)
Definition returned (r : result spmatrix) : spmatrix :=
  match r with
  | OK A => A
  | Raise _ => tabulate 0 0 (fun _ _ => 0)
  end.

(** The advection and diffusion matrices on a mesh of eight points, and
    the spatial terms for [u = 1], [nu = 1/2], [dx = 1/4]. *)
Definition example_D : spmatrix := returned (advection_matrix 8).
Definition example_L : spmatrix := returned (diffusion_matrix 8).
Definition example_K : spmatrix :=
  returned (spatial_terms 1 (frac 1 2) (frac 1 4) example_D example_L).
Definition example_q : vector :=
  [1; frac 1 2; 0; frac (-3) 4; frac 2 1; 0; frac 1 3; frac 5 1].

(** The mass matrix on two points and its negative: with [theta = 1] and
    [dt = 1] they give [A1 = M/dt + theta*K = 0]. *)
Definition example_M : spmatrix := returned (mass_matrix 2).
Definition example_negM : spmatrix := smul (- (1)) example_M.

(** The system a successful run of the cells returned. *)
Definition built (r : result (ImplicitSystem * nat)) : ImplicitSystem :=
  match r with
  | OK (sys, _) => sys
  | Raise _ =>
      mk_system (tabulate 0 0 (fun _ _ => 0)) (tabulate 0 0 (fun _ _ => 0))
                (fun _ => Raise RuntimeError)
  end.

(** Four mesh points, [u = 1], [nu = 1/2], [dx = 1], [dt = 1],
    [theta = 1/2]. *)
Definition example_system : ImplicitSystem :=
  built (notebook_system 4 1 (frac 1 2) 1 1 (frac 1 2) 0%nat).

(** The matrices of that system: [M], and [K] for [u = 1], [nu = 1/2],
    [dx = 1]. *)
Definition example_mass : spmatrix := returned (mass_matrix 4).
Definition example_spatial : spmatrix :=
  returned (spatial_terms 1 (frac 1 2) 1
              (returned (advection_matrix 4)) (returned (diffusion_matrix 4))).


(** ** The remaining cells *)

(** An integer or a natural number as a float. *)
Definition of_Z (z : Z) : Qc := Q2Qc (inject_Z z).
Definition of_nat (n : nat) : Qc := of_Z (Z.of_nat n).

(** What the first cell leaves in the global scope besides its
    parameters. *)
Record Derived : Type := mk_derived {
  dx : Qc;
  nu : Qc;
  dt : Qc;
  cfl_u : Qc;
  cfl_v : Qc
}.

(** The first cell, for the parameters [nx], [lx], [u], [re] and [cfl]
    (the notebook sets [128], [2*pi], [1], [500] and [0.8]):
<<
    dx = lx/nx
    nu = lx*u/re
    dt = cfl*dx/u
    cfl_u = cfl
    cfl_v = nu*dt/dx**2
>>
    The divisions raise [ZeroDivisionError] for a zero divisor.  For
    a [dx] so small or so large that [dx**2] underflows to zero or
    overflows in double precision the program raises as well; the exact
    arithmetic of the model does not, so the properties below are stated
    for runs in which the cell has returned. *)
Definition first_cell (nx : nat) (lx u re cfl : Qc) : result Derived :=
  dx <- pydiv lx (of_nat nx) ;;
  nu <- pydiv (lx * u) re ;;
  dt <- pydiv (cfl * dx) u ;;
  cfl_v <- pydiv (nu * dt) (dx * dx) ;;
  OK (mk_derived dx nu dt cfl cfl_v).

(** [np.linspace(start, stop, num, endpoint=False)]: the points
    [start + i*step] for [i < num] with [step = (stop - start)/num]. *)
Definition linspace (start stop : Qc) (num : nat) : vector :=
  map (fun i => of_nat i * ((stop - start) / of_nat num) + start) (seq 0 num).

(** [mesh = np.linspace(start=-lx/2, stop=lx/2, num=nx, endpoint=False)]. *)
Definition mesh (lx : Qc) (nx : nat) : vector :=
  linspace (- lx / frac 2 1) (lx / frac 2 1) nx.


(** [range(start, stop, step)] for natural arguments; a zero step is a
    [ValueError]. *)
Definition range3 (start stop step : nat) : result (list nat) :=
  if (step =? 0)%nat then Raise ValueError
  else OK (map (fun j => (start + j * step)%nat)
               (seq 0 ((stop - start + step - 1) / step))).

(** A curve of the figure: its abscissae, its ordinates and its label
    (['ic'] for the initial condition, [str(i)] otherwise). *)
Inductive label : Type :=
| ic
| step_label (i : nat).

Record curve : Type := mk_curve {
  xs : vector;
  ys : vector;
  lab : label
}.

(** [plt.plot(x, y, label=l)] adds one curve to the figure; [x] and [y]
    must have the same length. *)
Definition plot (x y : vector) (l : label) (fig : list curve) : result (list curve) :=
  if (length x =? length y)%nat then OK (fig ++ [mk_curve x y l])
  else Raise ValueError.

(** [for i in l: s = body(i, s)]. *)
Fixpoint for_each {St : Type} (l : list nat)
    (body : nat -> St -> result St) (s : St) : result St :=
  match l with
  | [] => OK s
  | i :: t => s' <- body i s ;; for_each t body s'
  end.

(** The last cell, up to the curves it draws:
<<
    plt.plot(mesh, qinit, label='ic')
    for i in range(nplot, nt, nplot):
        plt.plot(mesh, q[i+1], label=str(i))
>> *)
Definition plot_cell (mesh qinit : vector) (q : list vector) (nt nplot : nat)
    : result (list curve) :=
  fig <- plot mesh qinit ic [] ;;
  steps <- range3 nplot nt nplot ;;
  for_each steps
    (fun i fig =>
       row <- getitem q (i + 1) ;;
       plot mesh row (step_label i) fig)
    fig.

(** ** Further quantities *)


(** The half-width of a centred stencil. *)
Definition half_width_of (stencil : vector) : nat := ((length stencil - 1) / 2)%nat.

(** The [m]-th moment of a centred stencil: [sum_t stencil[t] * (t - k)^m]. *)
Definition moment (stencil : vector) (m : nat) : Qc :=
  bigsum (length stencil)
    (fun t => nth t stencil 0
              * of_Z (Z.of_nat t - Z.of_nat (half_width_of stencil)) ^ m).

(** [g!] as a float. *)
Definition factorial (g : nat) : Qc := of_nat (fact g).

(** The stencil applied at point [i] of the periodic vector [q]:
    [sum_t stencil[t] * q[(i + t - k) mod n]]. *)
Definition apply_stencil (stencil : vector) (n : nat) (q : vector) (i : nat) : Qc :=
  bigsum (length stencil)
    (fun t => nth t stencil 0
              * nth (cyc n (Z.of_nat i + Z.of_nat t
                            - Z.of_nat (half_width_of stencil))) q 0).

(** The periodic neighbours [q[(i+1) mod n]] and [q[(i-1) mod n]]. *)
Definition next (n : nat) (q : vector) (i : nat) : Qc :=
  nth (cyc n (Z.of_nat i + 1)) q 0.
Definition prev (n : nat) (q : vector) (i : nat) : Qc :=
  nth (cyc n (Z.of_nat i - 1)) q 0.

(** Row zero of the identity, of [K], of [A0] and of [A1] on the periodic
    mesh of the notebook, as functions of the cyclic distance [m]. *)
Definition delta_coeff (m : nat) : Qc := if (m =? 0)%nat then 1 else 0.

Definition K_coeff (nx : nat) (u nu dx : Qc) (m : nat) : Qc :=
  u / dx * periodic_coeff [frac (-1) 2; 0; frac 1 2] nx m
  - nu / (dx * dx) * periodic_coeff [1; frac (-2) 1; 1] nx m.

Definition A0_coeff (nx : nat) (u nu dx dt theta : Qc) (m : nat) : Qc :=
  - (1 / dt) * delta_coeff m + (1 - theta) * K_coeff nx u nu dx m.

Definition A1_coeff (nx : nat) (u nu dx dt theta : Qc) (m : nat) : Qc :=
  1 / dt * delta_coeff m + theta * K_coeff nx u nu dx m.

(** The matrix with entries [a ((j - i) mod n)]. *)
Definition periodic_matrix (n : nat) (a : nat -> Qc) : spmatrix :=
  tabulate n n (fun i j => a (cyc n (Z.of_nat j - Z.of_nat i))).

(** * Properties *)

(** ** The stencil table *)

Ltac qc_compute := apply Qc_is_canon; reflexivity.

Lemma supported_cases (grad order : Z) :
  supported grad order ->
  In (grad, order)
     [(1, 2); (1, 4); (1, 6); (2, 2); (2, 4); (2, 6); (4, 2); (4, 4); (4, 6)]%Z.
Proof.
  intros [[Hg | [Hg | Hg]] [Ho | [Ho | Ho]]]; subst; simpl; tauto.
Qed.

(** A key outside [{1, 2, 4}] misses the outer dictionary. *)
Lemma gradient_stencil_bad_grad (grad order : Z) :
  grad <> 1%Z -> grad <> 2%Z -> grad <> 4%Z ->
  gradient_stencil grad order = Raise (KeyError grad).
Proof.
  intros H1 H2 H4.
  destruct grad as [ | p | p ]; try reflexivity.
  destruct p as [ p | p | ]; try reflexivity; try contradiction.
  destruct p as [ p | p | ]; try reflexivity; try contradiction.
  destruct p as [ p | p | ]; try reflexivity; contradiction.
Qed.

(** A key outside [{2, 4, 6}] misses the inner dictionary. *)
Lemma gradient_stencil_bad_order (grad order : Z) :
  (grad = 1 \/ grad = 2 \/ grad = 4)%Z ->
  order <> 2%Z -> order <> 4%Z -> order <> 6%Z ->
  gradient_stencil grad order = Raise (KeyError order).
Proof.
  intros Hg H2 H4 H6.
  assert (Hin : forall (a b c : result vector),
             match order with
             | 2%Z => a | 4%Z => b | 6%Z => c | _ => Raise (KeyError order)
             end = Raise (KeyError order)).
  { intros a b c.
    destruct order as [ | p | p ]; try reflexivity.
    destruct p as [ p | p | ]; try reflexivity.
    destruct p as [ p | p | ]; try reflexivity; try contradiction.
    - destruct p as [ p | p | ]; try reflexivity; contradiction.
    - destruct p as [ p | p | ]; try reflexivity; contradiction. }
  destruct Hg as [-> | [-> | ->]]; apply Hin.
Qed.

(** C3: the table holds the literal coefficients [[-1/2, 0, 1/2]] for the
    first gradient at second order and [[1, -2, 1]] for the second
    gradient at second order. *)
Theorem gradient_stencil_literal_values :
  gradient_stencil 1 2 = OK [- (1 / (1 + 1)); 0; 1 / (1 + 1)] /\
  gradient_stencil 2 2 = OK [1; - (1 + 1); 1].
Proof.
  split; simpl; repeat f_equal; qc_compute.
Qed.

Lemma gradient_stencil_missing (grad order : Z) :
  ~ supported grad order ->
  exists key : Z, gradient_stencil grad order = Raise (KeyError key).
Proof.
  intros Hns.
  destruct (Z.eq_dec grad 1) as [Hg1 | Hg1];
    [ | destruct (Z.eq_dec grad 2) as [Hg2 | Hg2];
        [ | destruct (Z.eq_dec grad 4) as [Hg4 | Hg4] ] ].
  4: { exists grad. now apply gradient_stencil_bad_grad. }
  all: exists order; apply gradient_stencil_bad_order; [ tauto | | | ];
    intros ->; apply Hns; unfold supported; tauto.
Qed.

Lemma supported_dec (grad order : Z) :
  {supported grad order} + {~ supported grad order}.
Proof.
  unfold supported.
  destruct (Z.eq_dec grad 1), (Z.eq_dec grad 2), (Z.eq_dec grad 4),
    (Z.eq_dec order 2), (Z.eq_dec order 4), (Z.eq_dec order 6);
    (left; lia) || (right; lia).
Qed.

(** Every stencil of the table has odd length [2k+1] with [1 <= k <= 4]. *)
Lemma gradient_stencil_length (grad order : Z) (stencil : vector) :
  gradient_stencil grad order = OK stencil ->
  exists k : nat, length stencil = (2 * k + 1)%nat /\ (1 <= k <= 4)%nat.
Proof.
  intros H. destruct (supported_dec grad order) as [Hs | Hns].
  - apply supported_cases in Hs. simpl in Hs.
    repeat (destruct Hs as [Hs | Hs];
            [ injection Hs as <- <-; injection H as <-;
              first [ exists 1%nat; split; [ reflexivity | lia ]
                    | exists 2%nat; split; [ reflexivity | lia ]
                    | exists 3%nat; split; [ reflexivity | lia ]
                    | exists 4%nat; split; [ reflexivity | lia ] ] | ]).
    contradiction.
  - apply gradient_stencil_missing in Hns. destruct Hns as [key Hkey].
    congruence.
Qed.

(** C4: a pair outside [{1, 2, 4} x {2, 4, 6}] is a missing key: the
    lookup raises, and the assembly [sparse_circulant(gradient_stencil(..),
    nx)] raises the same error for any mesh size, since the argument is
    evaluated before [sparse_circulant] is entered. *)
Theorem gradient_stencil_unsupported (grad order : Z) :
  ~ supported grad order ->
  exists key : Z,
    gradient_stencil grad order = Raise (KeyError key) /\
    forall nx : nat, stencil_matrix grad order nx = Raise (KeyError key).
Proof.
  intros Hns.
  destruct (gradient_stencil_missing grad order Hns) as [key Hkey].
  exists key. split; [ exact Hkey | ].
  intros nx. unfold stencil_matrix. now rewrite Hkey.
Qed.

Lemma gradient_stencil_unsupported_witness :
  exists key : Z,
    gradient_stencil 3 2 = Raise (KeyError key) /\
    forall nx : nat, stencil_matrix 3 2 nx = Raise (KeyError key).
Proof.
  apply (gradient_stencil_unsupported 3 2).
  unfold supported. lia.
Defined.

(** C5: every stencil of the table sums to zero, hence within [1e-12]
    of zero. *)
Theorem gradient_stencil_sums_to_zero (grad order : Z) :
  supported grad order ->
  exists stencil : vector,
    gradient_stencil grad order = OK stencil /\
    vsum stencil = 0 /\
    - tolerance <= vsum stencil <= tolerance.
Proof.
  intros Hs. apply supported_cases in Hs. simpl in Hs.
  assert (Htol : - tolerance <= 0 <= tolerance) by (split; discriminate).
  repeat (destruct Hs as [Hs | Hs];
          [ injection Hs as <- <-; eexists; split; [ reflexivity | ];
            assert (Hz : forall v, v = 0 -> v = 0 /\ - tolerance <= v <= tolerance)
              by (intros v ->; split; [ reflexivity | exact Htol ]);
            apply Hz; qc_compute | ]).
  contradiction.
Qed.

Lemma gradient_stencil_sums_to_zero_witness :
  exists stencil : vector,
    gradient_stencil 4 6 = OK stencil /\
    vsum stencil = 0 /\
    - tolerance <= vsum stencil <= tolerance.
Proof.
  apply (gradient_stencil_sums_to_zero 4 6).
  unfold supported. lia.
Defined.

(** ** Sums and tabulated matrices *)

Lemma OK_inj {A : Type} (a b : A) : OK a = OK b -> a = b.
Proof.
  now intros [= ->].
Qed.

Lemma nth_map_seq {A : Type} (f : nat -> A) (n i : nat) (d : A) :
  (i < n)%nat -> nth i (map f (seq 0 n)) d = f i.
Proof.
  intros Hi.
  rewrite (nth_indep _ d (f 0%nat)) by (rewrite length_map, length_seq; exact Hi).
  rewrite (map_nth f (seq 0 n) 0%nat i), seq_nth by exact Hi.
  reflexivity.
Qed.

Lemma map_seq_ext {A : Type} (f g : nat -> A) (n : nat) :
  (forall i, (i < n)%nat -> f i = g i) -> map f (seq 0 n) = map g (seq 0 n).
Proof.
  intros H. apply map_ext_in. intros i Hi. apply in_seq in Hi. apply H. lia.
Qed.

Lemma list_as_map_seq (v : vector) :
  v = map (fun i => nth i v 0) (seq 0 (length v)).
Proof.
  apply (nth_ext _ _ 0 0).
  - now rewrite length_map, length_seq.
  - intros i Hi. now rewrite nth_map_seq.
Qed.

Lemma entry_tabulate (m n : nat) (f : nat -> nat -> Qc) (i j : nat) :
  (i < m)%nat -> (j < n)%nat -> entry (tabulate m n f) i j = f i j.
Proof.
  intros Hi Hj. unfold entry, tabulate. simpl.
  rewrite (nth_map_seq _ m i) by exact Hi.
  now rewrite nth_map_seq.
Qed.

Lemma vsum_app (a b : vector) : vsum (a ++ b) = vsum a + vsum b.
Proof.
  induction a as [ | x a IH ]; simpl.
  - ring.
  - rewrite IH. ring.
Qed.

Lemma vsum_map_ext {A : Type} (f g : A -> Qc) (l : list A) :
  (forall a, In a l -> f a = g a) -> vsum (map f l) = vsum (map g l).
Proof.
  intros H. f_equal. now apply map_ext_in.
Qed.

Lemma vsum_map_zero {A : Type} (f : A -> Qc) (l : list A) :
  (forall a, In a l -> f a = 0) -> vsum (map f l) = 0.
Proof.
  induction l as [ | a l IH ]; intros H; simpl.
  - reflexivity.
  - rewrite H by (now left). rewrite IH by (intros; apply H; now right). ring.
Qed.

Lemma vsum_map_plus {A : Type} (f g : A -> Qc) (l : list A) :
  vsum (map (fun a => f a + g a) l) = vsum (map f l) + vsum (map g l).
Proof.
  induction l as [ | a l IH ]; simpl.
  - ring.
  - rewrite IH. ring.
Qed.

Lemma vsum_map_scale {A : Type} (c : Qc) (f : A -> Qc) (l : list A) :
  vsum (map (fun a => c * f a) l) = c * vsum (map f l).
Proof.
  induction l as [ | a l IH ]; simpl.
  - ring.
  - rewrite IH. ring.
Qed.

Lemma vsum_permutation (a b : vector) : Permutation a b -> vsum a = vsum b.
Proof.
  induction 1; simpl; try congruence; ring.
Qed.

(** Exchanging two finite sums. *)
Lemma vsum_map_swap {A B : Type} (f : A -> B -> Qc) (la : list A) (lb : list B) :
  vsum (map (fun a => vsum (map (fun b => f a b) lb)) la) =
  vsum (map (fun b => vsum (map (fun a => f a b) la)) lb).
Proof.
  induction la as [ | a la IH ]; simpl.
  - symmetry. now apply vsum_map_zero.
  - rewrite IH. now rewrite <- vsum_map_plus.
Qed.

Lemma bigsum_ext (n : nat) (f g : nat -> Qc) :
  (forall i, (i < n)%nat -> f i = g i) -> bigsum n f = bigsum n g.
Proof.
  intros H. unfold bigsum. f_equal. now apply map_seq_ext.
Qed.


Lemma bigsum_swap (m n : nat) (f : nat -> nat -> Qc) :
  bigsum m (fun i => bigsum n (fun j => f i j)) =
  bigsum n (fun j => bigsum m (fun i => f i j)).
Proof.
  apply vsum_map_swap.
Qed.

(** A sum with a single non-zero term. *)
Lemma vsum_map_single {A : Type} (f : A -> Qc) (l1 l2 : list A) (a : A) :
  (forall b, In b l1 -> f b = 0) -> (forall b, In b l2 -> f b = 0) ->
  vsum (map f (l1 ++ a :: l2)) = f a.
Proof.
  intros H1 H2. rewrite map_app, vsum_app. simpl.
  rewrite (vsum_map_zero f l1 H1), (vsum_map_zero f l2 H2). ring.
Qed.

Lemma seq_split_at (n c : nat) :
  (c < n)%nat -> seq 0 n = seq 0 c ++ c :: seq (S c) (n - c - 1).
Proof.
  intros Hc. replace n with (c + S (n - c - 1))%nat at 1 by lia.
  rewrite seq_app. reflexivity.
Qed.

Lemma bigsum_single (n c : nat) (f : nat -> Qc) :
  (c < n)%nat ->
  (forall j, (j < n)%nat -> j <> c -> f j = 0) ->
  bigsum n f = f c.
Proof.
  intros Hc H. unfold bigsum. rewrite (seq_split_at n c Hc).
  apply vsum_map_single; intros j Hj; apply in_seq in Hj; apply H; lia.
Qed.

(** Reindexing a sum over [0..n-1] by a bijection of the index range. *)
Lemma bigsum_reindex (n : nat) (sigma : nat -> nat) (f : nat -> Qc) :
  (forall i, (i < n)%nat -> (sigma i < n)%nat) ->
  (forall i j, (i < n)%nat -> (j < n)%nat -> sigma i = sigma j -> i = j) ->
  bigsum n (fun i => f (sigma i)) = bigsum n f.
Proof.
  intros Hrange Hinj. unfold bigsum.
  rewrite <- (map_map sigma f).
  apply vsum_permutation, Permutation_map, Permutation_map_same_l.
  - apply NoDup_map_NoDup_ForallPairs; [ | apply seq_NoDup ].
    intros i j Hi Hj. apply in_seq in Hi, Hj. apply Hinj; lia.
  - intros k Hk. apply in_map_iff in Hk. destruct Hk as [i [<- Hi]].
    apply in_seq in Hi. apply in_seq. specialize (Hrange i). lia.
Qed.

(** ** Structure of the assembled matrix *)

Ltac case_bool :=
  repeat match goal with
    | |- context [(?a <=? ?b)%Z] => destruct (Z.leb_spec a b)
    | |- context [(?a <? ?b)%Z] => destruct (Z.ltb_spec a b)
    | |- context [(?a =? ?b)%Z] => destruct (Z.eqb_spec a b)
    | |- context [(?a <=? ?b)%nat] => destruct (Nat.leb_spec a b)
    | |- context [(?a <? ?b)%nat] => destruct (Nat.ltb_spec a b)
    | |- context [(?a =? ?b)%nat] => destruct (Nat.eqb_spec a b)
    end.

Lemma cyc_small (n : nat) (d : Z) :
  (0 <= d < Z.of_nat n)%Z -> cyc n d = Z.to_nat d.
Proof.
  intros H. unfold cyc. now rewrite Z.mod_small.
Qed.

Lemma cyc_wrap (n : nat) (d : Z) :
  (- Z.of_nat n <= d < 0)%Z -> cyc n d = Z.to_nat (d + Z.of_nat n).
Proof.
  intros H. unfold cyc.
  replace d with (d + Z.of_nat n + (-1) * Z.of_nat n)%Z at 1 by ring.
  rewrite Z.mod_add by lia. now rewrite Z.mod_small by lia.
Qed.

Lemma cyc_lt (n : nat) (d : Z) : (0 < n)%nat -> (cyc n d < n)%nat.
Proof.
  intros Hn. unfold cyc.
  pose proof (Z.mod_pos_bound d (Z.of_nat n)). lia.
Qed.

Lemma cyc_congr (n : nat) (a b : Z) :
  (a mod Z.of_nat n = b mod Z.of_nat n)%Z -> cyc n a = cyc n b.
Proof.
  unfold cyc. now intros ->.
Qed.

Lemma arith_succ (b : Z) (m : nat) : arith b (S m) = b :: arith (b + 1) m.
Proof.
  unfold arith. simpl. f_equal; [ lia | ].
  rewrite <- seq_shift, map_map. apply map_ext. intros i. lia.
Qed.

Lemma in_arith (b : Z) (m : nat) (x : Z) :
  In x (arith b m) <-> (b <= x < b + Z.of_nat m)%Z.
Proof.
  unfold arith. rewrite in_map_iff. split.
  - intros [i [<- Hi]]. apply in_seq in Hi. lia.
  - intros H. exists (Z.to_nat (x - b)). split; [ | apply in_seq ]; lia.
Qed.

Lemma NoDup_arith (b : Z) (m : nat) : NoDup (arith b m).
Proof.
  apply NoDup_map_NoDup_ForallPairs; [ | apply seq_NoDup ].
  intros i j _ _ H. lia.
Qed.

Lemma has_duplicates_false (l : list Z) : has_duplicates l = false <-> NoDup l.
Proof.
  induction l as [ | x l IH ]; simpl.
  - split; [ constructor | reflexivity ].
  - rewrite orb_false_iff, IH. split.
    + intros [Hx Hl]. constructor; [ | exact Hl ].
      intros Hin. assert (existsb (Z.eqb x) l = true); [ | congruence ].
      apply existsb_exists. exists x. split; [ exact Hin | apply Z.eqb_refl ].
    + intros H. inversion H as [ | ? ? Hx Hl ]; subst. split; [ | exact Hl ].
      destruct (existsb (Z.eqb x) l) eqn:E; [ | reflexivity ].
      apply existsb_exists in E. destruct E as [y [Hy Hxy]].
      apply Z.eqb_eq in Hxy. subst y. contradiction.
Qed.

Lemma dia_entry_app (d1 d2 : list (list Qc)) (o1 o2 : list Z) (i j : nat) :
  length o1 = length d1 ->
  dia_entry (d1 ++ d2) (o1 ++ o2) i j = dia_entry d1 o1 i j + dia_entry d2 o2 i j.
Proof.
  intros Hlen. unfold dia_entry.
  revert d1 Hlen. induction o1 as [ | o o1 IH ]; intros [ | d d1 ] Hlen;
    simpl in *; try discriminate.
  - ring.
  - rewrite IH by lia. ring.
Qed.

(** A block of constant diagonals at adjacent offsets. *)
Lemma dia_entry_band (cs : vector) (b : Z) (n i j : nat) :
  (j < n)%nat ->
  dia_entry (map (fun c => repeat c n) cs) (arith b (length cs)) i j
  = band b cs (Z.of_nat j - Z.of_nat i).
Proof.
  intros Hj. revert b. induction cs as [ | c cs IH ]; intros b.
  - unfold band. simpl length. case_bool; simpl; try reflexivity; lia.
  - simpl length. rewrite arith_succ.
    change (dia_entry (map (fun c => repeat c n) (c :: cs)) (b :: arith (b + 1) (length cs)) i j)
      with ((if (b =? Z.of_nat j - Z.of_nat i)%Z then nth j (repeat c n) 0 else 0)
            + dia_entry (map (fun c => repeat c n) cs) (arith (b + 1) (length cs)) i j).
    rewrite IH. unfold band. simpl length.
    rewrite (nth_repeat_lt c 0 Hj).
    set (d := (Z.of_nat j - Z.of_nat i)%Z).
    case_bool; simpl; try lia; try ring.
    all: destruct (Z.to_nat (d - b)) as [ | m ] eqn:E; try lia;
      try (replace (Z.to_nat (d - (b + 1))) with m by lia); ring.
Qed.

(** The branch of [sparse_circulant] for stencils of more than one entry. *)
Lemma sparse_circulant_general (stencil : vector) (n : nat) :
  length stencil <> 1%nat ->
  sparse_circulant stencil n =
    let ns := length stencil in
    let noff := ((ns - 1) / 2)%nat in
    if Nat.even ns then Raise ValueError
    else
      spdiags
        (map (fun c => repeat c n)
             (skipn (noff + 1) stencil ++ stencil ++ firstn noff stencil))
        (arith (- Z.of_nat n + 1) noff
         ++ arith (- Z.of_nat noff) (2 * noff + 1)
         ++ arith (Z.of_nat n - Z.of_nat noff) noff).
Proof.
  intros H. destruct stencil as [ | a [ | b t ] ]; try reflexivity.
  now contradiction H.
Qed.

Lemma half_width (k : nat) : ((2 * k + 1 - 1) / 2 = k)%nat.
Proof.
  replace (2 * k + 1 - 1)%nat with (k * 2)%nat by lia. now apply Nat.div_mul.
Qed.

Lemma odd_length (k : nat) : Nat.even (2 * k + 1) = false.
Proof.
  replace (2 * k + 1)%nat with (1 + 2 * k)%nat by lia.
  now rewrite Nat.even_add_mul_2.
Qed.

Lemma tabulate_ext (m n : nat) (f g : nat -> nat -> Qc) :
  (forall i j, (i < m)%nat -> (j < n)%nat -> f i j = g i j) ->
  tabulate m n f = tabulate m n g.
Proof.
  intros H. unfold tabulate. f_equal.
  apply map_seq_ext. intros i Hi. apply map_seq_ext. intros j Hj. now apply H.
Qed.

Lemma spdiags_ok (data : list (list Qc)) (diags : list Z) (n : nat) :
  data <> [] ->
  Forall (fun r => length r = n) data ->
  length data = length diags ->
  NoDup diags ->
  spdiags data diags = OK (tabulate n n (dia_entry data diags)).
Proof.
  intros Hne Hrows Hlen Hnd. destruct data as [ | row0 data ]; [ congruence | ].
  unfold spdiags. inversion Hrows; subst.
  rewrite Hlen, Nat.eqb_refl. simpl negb. cbv iota.
  apply has_duplicates_false in Hnd. now rewrite Hnd.
Qed.

Lemma length_arith (b : Z) (m : nat) : length (arith b m) = m.
Proof.
  unfold arith. now rewrite length_map, length_seq.
Qed.

Lemma dia_entry_band_len (cs : vector) (b : Z) (m n i j : nat) :
  length cs = m -> (j < n)%nat ->
  dia_entry (map (fun c => repeat c n) cs) (arith b m) i j
  = band b cs (Z.of_nat j - Z.of_nat i).
Proof.
  intros <-. apply dia_entry_band.
Qed.

(** The three blocks of diagonals of a stencil of half-width [k >= 1] on
    a mesh of more than [2k] points add up to the periodic coefficient. *)
Lemma bands_periodic (stencil : vector) (n k : nat) (d : Z) :
  length stencil = (2 * k + 1)%nat -> (2 * k < n)%nat ->
  (- Z.of_nat n < d < Z.of_nat n)%Z ->
  band (- Z.of_nat n + 1) (skipn (k + 1) stencil) d
  + (band (- Z.of_nat k) stencil d
     + band (Z.of_nat n - Z.of_nat k) (firstn k stencil) d)
  = periodic_coeff stencil n (cyc n d).
Proof.
  intros Hlen Hn Hd. unfold band, periodic_coeff.
  rewrite length_skipn, length_firstn, Hlen, half_width.
  rewrite nth_skipn, nth_firstn.
  destruct (Z.neg_nonneg_cases d) as [Hneg | Hpos].
  - rewrite cyc_wrap by lia.
    case_bool; simpl; try lia; ring_simplify; try reflexivity; f_equal; lia.
  - rewrite cyc_small by lia.
    case_bool; simpl; try lia; ring_simplify; try reflexivity; f_equal; lia.
Qed.

(** The matrix assembled on a mesh of more than [2k] points is the
    periodic matrix of the stencil: entry [(i, j)] is the coefficient at
    the cyclic distance [(j - i) mod n]. *)
Lemma sparse_circulant_periodic (stencil : vector) (n k : nat) :
  length stencil = (2 * k + 1)%nat -> (2 * k < n)%nat ->
  sparse_circulant stencil n =
    OK (tabulate n n
          (fun i j => periodic_coeff stencil n (cyc n (Z.of_nat j - Z.of_nat i)))).
Proof.
  intros Hlen Hn. destruct k as [ | k ].
  - (* a single coefficient: the diagonal branch *)
    destruct stencil as [ | c [ | ? ? ] ]; try discriminate Hlen.
    unfold sparse_circulant.
    rewrite (spdiags_ok _ _ n).
    + f_equal. apply tabulate_ext. intros i j Hi Hj.
      unfold dia_entry, periodic_coeff. simpl.
      rewrite (nth_indep _ 0 (c * 1))
        by (now rewrite length_map, repeat_length).
      rewrite (map_nth (Qcmult c)), (nth_repeat_lt 1 1 Hj).
      destruct (Z.eqb_spec 0 (Z.of_nat j - Z.of_nat i)) as [Heq | Hneq].
      * rewrite <- Heq. unfold cyc. rewrite Z.mod_0_l by lia. simpl.
        replace (n - 0 <=? 0)%nat with false by (symmetry; apply Nat.leb_gt; lia).
        ring.
      * assert (Hc : (0 < cyc n (Z.of_nat j - Z.of_nat i) < n)%nat).
        { destruct (Z.neg_nonneg_cases (Z.of_nat j - Z.of_nat i)).
          - rewrite cyc_wrap by lia. lia.
          - rewrite cyc_small by lia. lia. }
        destruct (cyc n (Z.of_nat j - Z.of_nat i)) as [ | m ]; [ lia | ].
        simpl.
        replace (n - 0 <=? S m)%nat with false by (symmetry; apply Nat.leb_gt; lia).
        destruct (Z.of_nat j - Z.of_nat i)%Z; [ congruence | ring | ring ].
    + discriminate.
    + repeat constructor. now rewrite length_map, repeat_length.
    + reflexivity.
    + repeat constructor. intros [].
  - (* the general branch *)
    set (k' := S k) in *.
    rewrite sparse_circulant_general by lia. cbv zeta.
    rewrite Hlen, half_width, odd_length.
    assert (Hskip : length (skipn (k' + 1) stencil) = k')
      by (rewrite length_skipn; lia).
    assert (Hfirst : length (firstn k' stencil) = k')
      by (rewrite length_firstn; lia).
    rewrite (spdiags_ok _ _ n).
    + f_equal. apply tabulate_ext. intros i j Hi Hj.
      rewrite !map_app.
      rewrite !dia_entry_app by (now rewrite length_arith, length_map).
      rewrite !dia_entry_band_len by (assumption || lia).
      apply bands_periodic with (k := k'); lia.
    + destruct stencil; [ discriminate Hlen | ].
      rewrite !map_app. simpl. intros H. apply app_eq_nil in H.
      destruct H as [_ H]. discriminate H.
    + apply Forall_forall. intros r Hr. apply in_map_iff in Hr.
      destruct Hr as [c [<- _]]. apply repeat_length.
    + rewrite length_map, !length_app, !length_arith. lia.
    + apply NoDup_app; [ apply NoDup_arith | | ].
      * apply NoDup_app; [ apply NoDup_arith | apply NoDup_arith | ].
        intros x Hx Hy. apply in_arith in Hx, Hy. lia.
      * intros x Hx Hy. apply in_arith in Hx. apply in_app_or in Hy.
        destruct Hy as [Hy | Hy]; apply in_arith in Hy; lia.
Qed.

Lemma NoDup_app_disjoint {A : Type} (l1 l2 : list A) (x : A) :
  NoDup (l1 ++ l2) -> In x l1 -> In x l2 -> False.
Proof.
  intros Hnd H1 H2. apply in_split in H1. destruct H1 as [a [b ->]].
  rewrite <- app_assoc in Hnd. simpl in Hnd.
  apply NoDup_remove_2 in Hnd. apply Hnd.
  apply in_or_app. right. apply in_or_app. now right.
Qed.

(** On a mesh of at most [2k] points the wrapped diagonals collide with
    the inner ones and the DIA constructor rejects the offsets. *)
Lemma sparse_circulant_overlap (stencil : vector) (n k : nat) :
  length stencil = (2 * k + 1)%nat -> (0 < k)%nat -> (n <= 2 * k)%nat ->
  sparse_circulant stencil n = Raise ValueError.
Proof.
  intros Hlen Hk Hn.
  rewrite sparse_circulant_general by lia. cbv zeta.
  rewrite Hlen, half_width, odd_length.
  unfold spdiags.
  destruct (map _ _) as [ | row0 data ] eqn:Edata.
  - exfalso. destruct stencil; [ simpl in Hlen; lia | ].
    rewrite !map_app in Edata. simpl in Edata. apply app_eq_nil in Edata.
    destruct Edata as [_ H]. discriminate H.
  - rewrite <- Edata.
    replace (length (map _ _) =? length (_ ++ _ ++ _))%nat with true.
    + simpl negb. cbv iota.
      destruct (has_duplicates _) eqn:E; [ reflexivity | exfalso ].
      apply has_duplicates_false in E. apply NoDup_app_remove_l in E.
      apply (NoDup_app_disjoint _ _ (Z.of_nat n - Z.of_nat k)%Z E);
        apply in_arith; lia.
    + symmetry. apply Nat.eqb_eq.
      rewrite length_map, !length_app, !length_arith, length_skipn, length_firstn.
      lia.
Qed.

(** C9: a mesh of [n <= 2k] points for a stencil of half-width [k] is
    not assembled: the call raises instead of returning a matrix. *)
Theorem degenerate_mesh_rejected (stencil : vector) (n k : nat) :
  length stencil = (2 * k + 1)%nat ->
  (0 < n)%nat ->
  (n <= 2 * k)%nat ->
  sparse_circulant stencil n = Raise ValueError.
Proof.
  intros Hlen Hpos Hn. apply sparse_circulant_overlap with (k := k); lia.
Qed.

Lemma degenerate_mesh_rejected_witness :
  sparse_circulant [frac 1 12; frac (-2) 3; 0; frac 2 3; frac (-1) 12] 4
  = Raise ValueError.
Proof.
  apply (degenerate_mesh_rejected _ 4 2); [ reflexivity | lia | lia ].
Defined.

(** ** Products with tabulated matrices *)

Lemma dot_tabulate (m n : nat) (f : nat -> nat -> Qc) (q : vector) :
  length q = n ->
  dot (tabulate m n f) q =
    OK (map (fun i => bigsum n (fun j => f i j * nth j q 0)) (seq 0 m)).
Proof.
  intros Hq. unfold dot. simpl ncols. simpl nrows.
  change (ncols (tabulate m n f)) with n. change (nrows (tabulate m n f)) with m.
  rewrite Hq, Nat.eqb_refl. f_equal.
  apply map_seq_ext. intros i Hi. apply bigsum_ext. intros j Hj.
  now rewrite entry_tabulate.
Qed.

Lemma cyc_of_nat (n : nat) (z : Z) :
  (0 < n)%nat -> Z.of_nat (cyc n z) = (z mod Z.of_nat n)%Z.
Proof.
  intros Hn. unfold cyc. apply Z2Nat.id.
  pose proof (Z.mod_pos_bound z (Z.of_nat n)). lia.
Qed.

Lemma cyc_sub (n : nat) (a b : Z) :
  (0 < n)%nat ->
  cyc n (Z.of_nat (cyc n a) - Z.of_nat (cyc n b)) = cyc n (a - b).
Proof.
  intros Hn. apply cyc_congr. rewrite !cyc_of_nat by exact Hn.
  symmetry. apply Zminus_mod.
Qed.

Lemma cyc_shift_inj (n : nat) (s : Z) (i j : nat) :
  (i < n)%nat -> (j < n)%nat ->
  cyc n (Z.of_nat i - s) = cyc n (Z.of_nat j - s) -> i = j.
Proof.
  intros Hi Hj H. apply (f_equal Z.of_nat) in H.
  rewrite !cyc_of_nat in H by lia.
  assert (Hmod : (Z.of_nat i mod Z.of_nat n = Z.of_nat j mod Z.of_nat n)%Z).
  { replace (Z.of_nat i) with (Z.of_nat i - s + s)%Z by ring.
    replace (Z.of_nat j) with (Z.of_nat j - s + s)%Z by ring.
    rewrite (Zplus_mod (Z.of_nat i - s)), (Zplus_mod (Z.of_nat j - s)).
    now rewrite H. }
  rewrite !Z.mod_small in Hmod by lia. lia.
Qed.

Lemma cyc_diff_zero (n i j : nat) :
  (i < n)%nat -> (j < n)%nat ->
  cyc n (Z.of_nat j - Z.of_nat i) = 0%nat -> i = j.
Proof.
  intros Hi Hj H.
  destruct (Z.neg_nonneg_cases (Z.of_nat j - Z.of_nat i)).
  - rewrite cyc_wrap in H by lia. lia.
  - rewrite cyc_small in H by lia. lia.
Qed.

(** Shift invariance of any matrix whose entries depend on the cyclic
    distance of row and column only. *)
Lemma periodic_shift (n : nat) (a : nat -> Qc) (q : vector) (s : Z) :
  (0 < n)%nat -> length q = n ->
  exists y : vector,
    dot (tabulate n n (fun i j => a (cyc n (Z.of_nat j - Z.of_nat i)))) q = OK y /\
    dot (tabulate n n (fun i j => a (cyc n (Z.of_nat j - Z.of_nat i)))) (shift q s)
    = OK (shift y s).
Proof.
  intros Hn Hq. eexists. split; [ now apply dot_tabulate | ].
  assert (Hs : length (shift q s) = n)
    by (unfold shift; now rewrite length_map, length_seq).
  rewrite dot_tabulate by exact Hs. f_equal.
  unfold shift at 2. rewrite !length_map, !length_seq.
  apply map_seq_ext. intros i Hi.
  rewrite nth_map_seq by (now apply cyc_lt).
  fold (cyc n (Z.of_nat i - s)).
  rewrite <- (bigsum_reindex n (fun j => cyc n (Z.of_nat j - s))
                (fun j => a (cyc n (Z.of_nat j - Z.of_nat (cyc n (Z.of_nat i - s))))
                          * nth j q 0)).
  - apply bigsum_ext. intros j Hj. f_equal.
    + rewrite cyc_sub by exact Hn. do 2 f_equal. lia.
    + unfold shift. rewrite Hq. now rewrite nth_map_seq.
  - intros j _. now apply cyc_lt.
  - intros j j' Hj Hj'. now apply cyc_shift_inj.
Qed.

(** ** The mass matrix *)

(** The mass matrix is the tabulated identity. *)
Lemma mass_matrix_entries (n : nat) :
  (1 <= n)%nat ->
  mass_matrix n = OK (tabulate n n (fun i j => if (i =? j)%nat then 1 else 0)).
Proof.
  intros Hn. unfold mass_matrix.
  rewrite (sparse_circulant_periodic [1] n 0) by (reflexivity || lia).
  f_equal. apply tabulate_ext. intros i j Hi Hj.
  unfold periodic_coeff. simpl length. simpl Nat.div.
  pose proof (cyc_diff_zero n i j Hi Hj) as Hz.
  pose proof (cyc_lt n (Z.of_nat j - Z.of_nat i) ltac:(lia)) as Hlt.
  destruct (Nat.eqb_spec i j) as [-> | Hne].
  - rewrite Z.sub_diag. unfold cyc. rewrite Z.mod_0_l by lia. simpl.
    replace (n - 0 <=? 0)%nat with false by (symmetry; apply Nat.leb_gt; lia).
    ring.
  - destruct (cyc n (Z.of_nat j - Z.of_nat i)) as [ | m ];
      [ now specialize (Hz eq_refl) | ].
    simpl.
    replace (n - 0 <=? S m)%nat with false by (symmetry; apply Nat.leb_gt; lia).
    ring.
Qed.

(** The product with a multiple of the identity. *)
Lemma dot_scaled_identity (n : nat) (c : Qc) (f : nat -> nat -> Qc) (q : vector) :
  length q = n ->
  (forall i j, (i < n)%nat -> (j < n)%nat ->
               f i j = if (i =? j)%nat then c else 0) ->
  dot (tabulate n n f) q = OK (map (Qcmult c) q).
Proof.
  intros Hq Hf. rewrite dot_tabulate by exact Hq. f_equal.
  transitivity (map (Qcmult c) (map (fun i => nth i q 0) (seq 0 (length q))));
    [ | f_equal; symmetry; apply list_as_map_seq ].
  rewrite map_map, Hq.
  apply map_seq_ext. intros i Hi.
  rewrite (bigsum_single n i); [ | exact Hi | ].
  - rewrite Hf by assumption. now rewrite Nat.eqb_refl.
  - intros j Hj Hne. rewrite Hf by assumption.
    destruct (Nat.eqb_spec i j); [ congruence | ring ].
Qed.

(** C10: the matrix assembled from the single-entry stencil [[1]] has
    ones on the diagonal and zeros elsewhere, and its product with a
    vector of length [n] is that vector. *)
Theorem mass_matrix_identity (n : nat) (q : vector) :
  (1 <= n)%nat ->
  length q = n ->
  exists M : spmatrix,
    mass_matrix n = OK M /\
    shape M = (n, n) /\
    (forall i j, (i < n)%nat -> (j < n)%nat ->
                 entry M i j = if (i =? j)%nat then 1 else 0) /\
    dot M q = OK q.
Proof.
  intros Hn Hq. rewrite (mass_matrix_entries n Hn).
  eexists. split; [ reflexivity | ]. split; [ reflexivity | ].
  split.
  - intros i j Hi Hj. now rewrite entry_tabulate.
  - rewrite (dot_scaled_identity n 1) by (assumption || reflexivity).
    f_equal. transitivity (map (fun x : Qc => x) q); [ | apply map_id ].
    apply map_ext. intros x. ring.
Qed.

Lemma mass_matrix_identity_witness :
  exists M : spmatrix,
    mass_matrix 3 = OK M /\
    shape M = (3, 3)%nat /\
    (forall i j, (i < 3)%nat -> (j < 3)%nat ->
                 entry M i j = if (i =? j)%nat then 1 else 0) /\
    dot M [frac 1 2; frac 3 1; frac (-5) 7] = OK [frac 1 2; frac 3 1; frac (-5) 7].
Proof.
  apply (mass_matrix_identity 3 [frac 1 2; frac 3 1; frac (-5) 7]);
    [ lia | reflexivity ].
Defined.

(** ** Shift invariance *)

(** A matrix that was assembled on a non-empty mesh is the periodic
    matrix of its stencil, and the mesh has more than [2k] points. *)
Lemma sparse_circulant_inv (stencil : vector) (n k : nat) (A : spmatrix) :
  length stencil = (2 * k + 1)%nat -> (0 < n)%nat ->
  sparse_circulant stencil n = OK A ->
  (2 * k < n)%nat /\
  A = tabulate n n
        (fun i j => periodic_coeff stencil n (cyc n (Z.of_nat j - Z.of_nat i))).
Proof.
  intros Hlen Hn H. destruct (le_lt_dec n (2 * k)) as [Hle | Hlt].
  - rewrite (sparse_circulant_overlap stencil n k) in H by lia. discriminate H.
  - rewrite (sparse_circulant_periodic stencil n k) in H by assumption.
    injection H as <-. now split.
Qed.

(** C6: on a mesh of [n >= 8] points, a matrix assembled from a stencil
    of the table commutes with cyclic shifts: [A (shift q s) = shift (A q)
    s] for every vector [q] of length [n] and every integer [s]. *)
Theorem circulant_shift_invariance
    (grad order : Z) (stencil : vector) (n : nat) (A : spmatrix)
    (q : vector) (s : Z) :
  (8 <= n)%nat ->
  gradient_stencil grad order = OK stencil ->
  sparse_circulant stencil n = OK A ->
  length q = n ->
  exists y : vector,
    dot A q = OK y /\ dot A (shift q s) = OK (shift y s).
Proof.
  intros Hn Hst HA Hq.
  destruct (gradient_stencil_length _ _ _ Hst) as [k [Hlen _]].
  destruct (sparse_circulant_inv stencil n k A Hlen ltac:(lia) HA) as [_ ->].
  apply (periodic_shift n (periodic_coeff stencil n) q s); [ lia | exact Hq ].
Qed.

Lemma circulant_shift_invariance_witness :
  exists y : vector,
    dot example_D example_q = OK y /\
    dot example_D (shift example_q 3) = OK (shift y 3).
Proof.
  apply (circulant_shift_invariance 1 2 [frac (-1) 2; 0; frac 1 2] 8);
    [ lia | reflexivity | vm_compute; reflexivity | reflexivity ].
Defined.

(** ** Mean conservation *)

Lemma seq_from (a len : nat) : seq a len = map (fun t => (a + t)%nat) (seq 0 len).
Proof.
  induction a as [ | a IH ].
  - symmetry. apply map_id.
  - rewrite <- seq_shift, IH, map_map. reflexivity.
Qed.

Lemma vsum_as_bigsum (v : vector) : vsum v = bigsum (length v) (fun i => nth i v 0).
Proof.
  unfold bigsum. now rewrite <- list_as_map_seq.
Qed.

(** The coefficients of row zero add up to the sum of the stencil. *)
Lemma periodic_coeff_sum (stencil : vector) (n k : nat) :
  length stencil = (2 * k + 1)%nat -> (2 * k < n)%nat ->
  bigsum n (periodic_coeff stencil n) = vsum stencil.
Proof.
  intros Hlen Hn. unfold bigsum, periodic_coeff. rewrite Hlen, half_width.
  rewrite vsum_map_plus.
  transitivity (vsum (firstn k stencil ++ skipn k stencil));
    [ | now rewrite firstn_skipn ].
  rewrite vsum_app, (Qcplus_comm (vsum (firstn k stencil))).
  f_equal.
  - (* the centre and the right half *)
    replace n with ((k + 1) + (n - k - 1))%nat at 1 by lia.
    rewrite seq_app, map_app, vsum_app.
    rewrite (vsum_map_zero _ (seq (0 + (k + 1)) (n - k - 1))).
    + rewrite (vsum_as_bigsum (skipn k stencil)), length_skipn, Hlen.
      replace (2 * k + 1 - k)%nat with (k + 1)%nat by lia.
      unfold bigsum. rewrite Qcplus_0_r. apply vsum_map_ext.
      intros m Hm. apply in_seq in Hm. rewrite nth_skipn.
      now replace (m <=? k)%nat with true by (symmetry; apply Nat.leb_le; lia).
    + intros m Hm. apply in_seq in Hm.
      now replace (m <=? k)%nat with false by (symmetry; apply Nat.leb_gt; lia).
  - (* the left half, wrapped *)
    replace n with ((n - k) + k)%nat at 1 by lia.
    rewrite seq_app, map_app, vsum_app.
    rewrite (vsum_map_zero _ (seq 0 (n - k))).
    + rewrite (vsum_as_bigsum (firstn k stencil)), length_firstn, Hlen.
      replace (Nat.min k (2 * k + 1)) with k by lia.
      unfold bigsum. rewrite Qcplus_0_l.
      rewrite (seq_from (0 + (n - k)) k), map_map. apply vsum_map_ext.
      intros t Ht. apply in_seq in Ht. rewrite nth_firstn.
      replace (n - k <=? 0 + (n - k) + t)%nat with true
        by (symmetry; apply Nat.leb_le; lia).
      replace (t <? k)%nat with true by (symmetry; apply Nat.ltb_lt; lia).
      f_equal. lia.
    + intros m Hm. apply in_seq in Hm.
      now replace (n - k <=? m)%nat with false by (symmetry; apply Nat.leb_gt; lia).
Qed.

Lemma cyc_mirror_inj (n j i i' : nat) :
  (i < n)%nat -> (i' < n)%nat ->
  cyc n (Z.of_nat j - Z.of_nat i) = cyc n (Z.of_nat j - Z.of_nat i') -> i = i'.
Proof.
  intros Hi Hi' H. apply (f_equal Z.of_nat) in H.
  rewrite !cyc_of_nat in H by lia.
  assert (Hmod : (Z.of_nat i mod Z.of_nat n = Z.of_nat i' mod Z.of_nat n)%Z).
  { replace (Z.of_nat i) with (Z.of_nat j - (Z.of_nat j - Z.of_nat i))%Z by ring.
    replace (Z.of_nat i') with (Z.of_nat j - (Z.of_nat j - Z.of_nat i'))%Z by ring.
    rewrite (Zminus_mod (Z.of_nat j) (Z.of_nat j - Z.of_nat i)).
    rewrite (Zminus_mod (Z.of_nat j) (Z.of_nat j - Z.of_nat i')).
    now rewrite H. }
  rewrite !Z.mod_small in Hmod by lia. lia.
Qed.

(** Every column of a periodic matrix holds the coefficients of row zero. *)
Lemma periodic_column_sum (n : nat) (a : nat -> Qc) (j : nat) :
  (0 < n)%nat ->
  bigsum n (fun i => a (cyc n (Z.of_nat j - Z.of_nat i))) = bigsum n a.
Proof.
  intros Hn.
  apply (bigsum_reindex n (fun i => cyc n (Z.of_nat j - Z.of_nat i)) a).
  - intros i _. now apply cyc_lt.
  - intros i i' Hi Hi'. now apply cyc_mirror_inj.
Qed.

(** The entries of the product with a periodic matrix add up to the sum
    of row zero times the sum of the vector. *)
Lemma periodic_dot_sum (n : nat) (a : nat -> Qc) (q : vector) :
  (0 < n)%nat -> length q = n ->
  vsum (map (fun i => bigsum n (fun j => a (cyc n (Z.of_nat j - Z.of_nat i))
                                        * nth j q 0))
            (seq 0 n))
  = bigsum n a * vsum q.
Proof.
  intros Hn Hq.
  change (bigsum n (fun i => bigsum n (fun j =>
            a (cyc n (Z.of_nat j - Z.of_nat i)) * nth j q 0))
          = bigsum n a * vsum q).
  rewrite bigsum_swap.
  transitivity (bigsum n (fun j => bigsum n a * nth j q 0)).
  - apply bigsum_ext. intros j _.
    rewrite <- (periodic_column_sum n a j Hn).
    unfold bigsum. rewrite (Qcmult_comm (vsum _)), <- vsum_map_scale.
    apply vsum_map_ext. intros i _. ring.
  - unfold bigsum at 1. rewrite vsum_map_scale. f_equal.
    rewrite (vsum_as_bigsum q), Hq. reflexivity.
Qed.

(** The spatial terms of two periodic matrices are periodic. *)
Lemma spatial_terms_periodic (n : nat) (aD aL : nat -> Qc) (u nu dx : Qc) (K : spmatrix) :
  spatial_terms u nu dx
    (tabulate n n (fun i j => aD (cyc n (Z.of_nat j - Z.of_nat i))))
    (tabulate n n (fun i j => aL (cyc n (Z.of_nat j - Z.of_nat i)))) = OK K ->
  K = tabulate n n
        (fun i j => (fun m => u / dx * aD m - nu / (dx * dx) * aL m)
                      (cyc n (Z.of_nat j - Z.of_nat i))).
Proof.
  unfold spatial_terms, pydiv.
  destruct (Qc_eq_dec dx 0) as [ | Hdx ]; [ discriminate | ].
  destruct (Qc_eq_dec (dx * dx) 0) as [ | Hdx2 ]; [ discriminate | ].
  simpl bind. unfold ssub, same_shape, smul.
  change (nrows (tabulate n n ?f)) with n. change (ncols (tabulate n n ?f)) with n.
  change (nrows (tabulate n n ?f)) with n. change (ncols (tabulate n n ?f)) with n.
  rewrite Nat.eqb_refl. simpl andb. cbv iota.
  intros H. injection H as <-.
  apply tabulate_ext. intros i j Hi Hj.
  now rewrite !entry_tabulate.
Qed.

(** C7: for [K = (u/dx) D - (nu/dx^2) L] with [D] and [L] assembled on
    the same periodic mesh from stencils that sum to zero, the entries
    of [K q] add up to zero for every vector [q] of the mesh size. *)
Theorem mean_conservation
    (sD sL : vector) (kD kL n : nat) (u nu dx : Qc) (D L K : spmatrix) (q : vector) :
  length sD = (2 * kD + 1)%nat ->
  length sL = (2 * kL + 1)%nat ->
  vsum sD = 0 ->
  vsum sL = 0 ->
  (0 < n)%nat ->
  sparse_circulant sD n = OK D ->
  sparse_circulant sL n = OK L ->
  spatial_terms u nu dx D L = OK K ->
  length q = n ->
  exists y : vector, dot K q = OK y /\ vsum y = 0.
Proof.
  intros HlD HlL HsD HsL Hn HD HL HK Hq.
  destruct (sparse_circulant_inv sD n kD D HlD Hn HD) as [HnD ->].
  destruct (sparse_circulant_inv sL n kL L HlL Hn HL) as [HnL ->].
  apply spatial_terms_periodic in HK. subst K.
  eexists. split; [ now apply dot_tabulate | ].
  pose proof (periodic_dot_sum n
                (fun m => u / dx * periodic_coeff sD n m
                          - nu / (dx * dx) * periodic_coeff sL n m) q Hn Hq) as Hsum.
  cbv beta in *. rewrite Hsum.
  rewrite <- (Qcmult_0_l (vsum q)). f_equal.
  transitivity (u / dx * bigsum n (periodic_coeff sD n)
                + - (nu / (dx * dx)) * bigsum n (periodic_coeff sL n)).
  - unfold bigsum. rewrite <- !vsum_map_scale, <- vsum_map_plus.
    apply vsum_map_ext. intros m _. ring.
  - rewrite (periodic_coeff_sum sD n kD), (periodic_coeff_sum sL n kL) by assumption.
    rewrite HsD, HsL. ring.
Qed.

Lemma mean_conservation_witness :
  exists y : vector, dot example_K example_q = OK y /\ vsum y = 0.
Proof.
  apply (mean_conservation
           [frac (-1) 2; 0; frac 1 2] [1; frac (-2) 1; 1] 1 1 8
           1 (frac 1 2) (frac 1 4) example_D example_L example_K example_q);
    try reflexivity; try qc_compute; try lia; vm_compute; reflexivity.
Defined.

(** ** The elimination solver *)

Lemma find_pivot_some (eqs : list equation) (p : equation) (others : list equation) :
  find_pivot eqs = Some (p, others) ->
  hd 0 (fst p) <> 0 /\
  length eqs = S (length others) /\
  (forall e, In e eqs <-> e = p \/ In e others).
Proof.
  revert others. induction eqs as [ | e eqs IH ]; intros others H; simpl in H.
  - discriminate.
  - destruct (Qc_eq_dec (hd 0 (fst e)) 0) as [Hz | Hnz].
    + destruct (find_pivot eqs) as [ [p' others'] | ]; [ | discriminate ].
      injection H as -> <-.
      destruct (IH others' eq_refl) as [Hp [Hlen Hin]].
      split; [ exact Hp | ]. split; [ simpl; lia | ].
      intros e'. simpl. rewrite Hin. tauto.
    + injection H as -> ->. split; [ exact Hnz | ]. split; [ reflexivity | ].
      intros e'. simpl. split; intros [H | H]; auto.
Qed.

Lemma find_pivot_none (eqs : list equation) :
  find_pivot eqs = None -> forall e, In e eqs -> hd 0 (fst e) = 0.
Proof.
  induction eqs as [ | e eqs IH ]; intros H e' Hin; simpl in *.
  - contradiction.
  - destruct (Qc_eq_dec (hd 0 (fst e)) 0) as [Hz | Hnz]; [ | discriminate ].
    destruct (find_pivot eqs) as [ [p' others'] | ]; [ discriminate | ].
    destruct Hin as [<- | Hin]; [ exact Hz | now apply IH ].
Qed.

Lemma dotp_cons (a x : Qc) (at' xt : vector) :
  dotp (a :: at') (x :: xt) = a * x + dotp at' xt.
Proof.
  reflexivity.
Qed.

Lemma dotp_eliminate (c : Qc) (a pa x : vector) :
  length a = length pa -> length a = length x ->
  dotp (map (fun ab : Qc * Qc => fst ab - c * snd ab) (combine a pa)) x
  = dotp a x - c * dotp pa x.
Proof.
  revert pa x. induction a as [ | a0 a IH ]; intros [ | p0 pa ] [ | x0 x ] Hp Hx;
    simpl in Hp, Hx; try discriminate.
  - unfold dotp. simpl. ring.
  - simpl combine. simpl map. rewrite !dotp_cons, IH by lia. simpl. ring.
Qed.

Lemma dotp_zeros (a : vector) (n : nat) : dotp a (repeat 0 n) = 0.
Proof.
  revert n. induction a as [ | a0 a IH ]; intros [ | n ]; try reflexivity.
  simpl repeat. rewrite dotp_cons, IH. ring.
Qed.

Lemma length_eliminate (p : Qc) (pivot e : equation) (n : nat) :
  length (fst pivot) = S n -> length (fst e) = S n ->
  length (fst (eliminate p pivot e)) = n.
Proof.
  intros Hp He. unfold eliminate. simpl.
  destruct pivot as [[ | p0 pa ] pb], e as [[ | a0 a ] b]; simpl in *; try discriminate.
  rewrite length_map, length_combine. lia.
Qed.

(** What an equation of the reduced system says about the full one. *)
Lemma eliminate_spec (p : Qc) (pivot e : equation) (xt : vector) (n : nat) :
  length (fst pivot) = S n -> length (fst e) = S n -> length xt = n ->
  dotp (fst (eliminate p pivot e)) xt
  = dotp (tl (fst e)) xt - hd 0 (fst e) / p * dotp (tl (fst pivot)) xt.
Proof.
  intros Hp He Hx. unfold eliminate. simpl fst.
  destruct pivot as [[ | p0 pa ] pb], e as [[ | a0 a ] b]; simpl in *; try discriminate.
  apply dotp_eliminate; lia.
Qed.

(** Soundness: a solution returned for a square system satisfies every
    equation. *)
Lemma gauss_sound (n : nat) (eqs : list equation) (x : vector) :
  length eqs = n ->
  Forall (fun e => length (fst e) = n) eqs ->
  gauss n eqs = Some x ->
  length x = n /\ Forall (satisfies x) eqs.
Proof.
  revert eqs x. induction n as [ | n IH ]; intros eqs x Hlen Hrows H.
  - simpl in H. injection H as <-. destruct eqs; [ | discriminate ].
    split; [ reflexivity | constructor ].
  - simpl in H.
    destruct (find_pivot eqs) as [ [pivot others] | ] eqn:Epiv; [ | discriminate ].
    destruct (find_pivot_some _ _ _ Epiv) as [Hp [Hlen' Hin]].
    rewrite Forall_forall in Hrows.
    assert (Hpl : length (fst pivot) = S n) by (apply Hrows, Hin; now left).
    destruct (gauss n _) as [ xt | ] eqn:Erec; [ | discriminate ].
    injection H as <-.
    apply IH in Erec.
    + destruct Erec as [Hxt Hsat]. split; [ simpl; lia | ].
      rewrite Forall_forall in Hsat |- *.
      assert (Hpivot : satisfies
                ((snd pivot - dotp (tl (fst pivot)) xt) / hd 0 (fst pivot) :: xt)
                pivot).
      { unfold satisfies. destruct pivot as [[ | p0 pa ] pb]; [ discriminate | ].
        simpl in *. rewrite dotp_cons. field. exact Hp. }
      intros e He. apply Hin in He. destruct He as [-> | He]; [ exact Hpivot | ].
      assert (Hel : length (fst e) = S n) by (apply Hrows, Hin; now right).
      specialize (Hsat (eliminate (hd 0 (fst pivot)) pivot e)
                       (in_map _ _ _ He)).
      unfold satisfies in Hsat |- *.
      rewrite (eliminate_spec _ _ _ _ n) in Hsat by assumption.
      unfold eliminate in Hsat. simpl snd in Hsat.
      destruct pivot as [[ | p0 pa ] pb]; [ discriminate | ].
      destruct e as [[ | a0 a ] b]; [ discriminate | ].
      simpl in *. rewrite dotp_cons.
      replace b with
        (dotp a xt - a0 / p0 * dotp pa xt + a0 / p0 * pb)
        by (rewrite Hsat; ring).
      field. exact Hp.
    + rewrite length_map. lia.
    + apply Forall_forall. intros e' He'. apply in_map_iff in He'.
      destruct He' as [e [<- He]]. apply length_eliminate; [ exact Hpl | ].
      apply Hrows, Hin. now right.
Qed.

(** Completeness: when the elimination breaks down, the matrix of the
    system has a non-zero vector in its kernel. *)
Lemma gauss_none (n : nat) (eqs : list equation) :
  length eqs = n ->
  Forall (fun e => length (fst e) = n) eqs ->
  gauss n eqs = None ->
  exists x : vector,
    length x = n /\ x <> repeat 0 n /\
    Forall (fun e => dotp (fst e) x = 0) eqs.
Proof.
  revert eqs. induction n as [ | n IH ]; intros eqs Hlen Hrows H.
  - discriminate.
  - simpl in H. rewrite Forall_forall in Hrows.
    destruct (find_pivot eqs) as [ [pivot others] | ] eqn:Epiv.
    + destruct (find_pivot_some _ _ _ Epiv) as [Hp [Hlen' Hin]].
      assert (Hpl : length (fst pivot) = S n) by (apply Hrows, Hin; now left).
      destruct (gauss n _) as [ xt | ] eqn:Erec; [ discriminate | ].
      apply IH in Erec.
      * destruct Erec as [y [Hy [Hnz Hsat]]].
        exists (- dotp (tl (fst pivot)) y / hd 0 (fst pivot) :: y).
        split; [ simpl; lia | ]. split; [ simpl; congruence | ].
        rewrite Forall_forall in Hsat |- *.
        assert (Hpivot :
                  dotp (fst pivot)
                       (- dotp (tl (fst pivot)) y / hd 0 (fst pivot) :: y) = 0).
        { destruct pivot as [[ | p0 pa ] pb]; [ discriminate | ].
          simpl in *. rewrite dotp_cons. field. exact Hp. }
        intros e He. apply Hin in He. destruct He as [-> | He]; [ exact Hpivot | ].
        assert (Hel : length (fst e) = S n) by (apply Hrows, Hin; now right).
        specialize (Hsat (eliminate (hd 0 (fst pivot)) pivot e)
                         (in_map _ _ _ He)).
        rewrite (eliminate_spec _ _ _ _ n) in Hsat by assumption.
        destruct pivot as [[ | p0 pa ] pb]; [ discriminate | ].
        destruct e as [[ | a0 a ] b]; [ discriminate | ].
        simpl in *. rewrite dotp_cons.
        assert (Ha : dotp a y = a0 / p0 * dotp pa y).
        { transitivity (dotp a y - a0 / p0 * dotp pa y + a0 / p0 * dotp pa y);
            [ ring | rewrite Hsat; ring ]. }
        rewrite Ha. field. exact Hp.
      * rewrite length_map. lia.
      * apply Forall_forall. intros e' He'. apply in_map_iff in He'.
        destruct He' as [e [<- He]]. apply length_eliminate; [ exact Hpl | ].
        apply Hrows, Hin. now right.
    + exists (1 :: repeat 0 n).
      split; [ simpl; now rewrite repeat_length | ].
      split; [ simpl; intros Heq; discriminate Heq | ].
      apply Forall_forall. intros e He.
      pose proof (find_pivot_none _ Epiv e He) as Hz.
      specialize (Hrows e He).
      destruct e as [[ | a0 a ] b]; [ discriminate | ].
      simpl in *. rewrite dotp_cons, dotp_zeros, Hz. ring.
Qed.


(** ** The factorization *)

Lemma combine_map_map {A B C : Type} (g : A -> B) (h : A -> C) (l : list A) :
  combine (map g l) (map h l) = map (fun a => (g a, h a)) l.
Proof.
  induction l as [ | a l IH ]; simpl; [ reflexivity | now rewrite IH ].
Qed.

Lemma dotp_map_seq (g : nat -> Qc) (n s : nat) (x : vector) :
  length x = n ->
  dotp (map g (seq s n)) x = vsum (map (fun j => g j * nth (j - s) x 0) (seq s n)).
Proof.
  revert s x. induction n as [ | n IH ]; intros s [ | x0 xt ] Hx; try discriminate.
  - reflexivity.
  - simpl seq. simpl map. rewrite dotp_cons, IH by (simpl in Hx; lia).
    simpl vsum. rewrite Nat.sub_diag. simpl nth. f_equal.
    apply vsum_map_ext. intros j Hj. apply in_seq in Hj.
    replace (j - s)%nat with (S (j - S s)) by lia. reflexivity.
Qed.

Lemma dotp_bigsum (g : nat -> Qc) (n : nat) (x : vector) :
  length x = n ->
  dotp (map g (seq 0 n)) x = bigsum n (fun j => g j * nth j x 0).
Proof.
  intros Hx. rewrite dotp_map_seq by exact Hx. unfold bigsum.
  apply vsum_map_ext. intros j _. now rewrite Nat.sub_0_r.
Qed.

Lemma sequence_map_seq {A : Type} (g : nat -> option A) (n s : nat) (r : list A) (d : A) :
  sequence (map g (seq s n)) = Some r ->
  length r = n /\ forall c, (c < n)%nat -> g (s + c)%nat = Some (nth c r d).
Proof.
  revert s r. induction n as [ | n IH ]; intros s r H; simpl in H.
  - injection H as <-. split; [ reflexivity | intros c Hc; lia ].
  - destruct (g s) as [ a | ] eqn:Egs; [ | discriminate ].
    destruct (sequence _) as [ r' | ] eqn:Eseq; [ | discriminate ].
    injection H as <-. destruct (IH _ _ Eseq) as [Hlen Hnth].
    split; [ simpl; lia | ].
    intros [ | c ] Hc.
    + now rewrite Nat.add_0_r.
    + simpl nth. rewrite <- Hnth by lia. f_equal. lia.
Qed.

Lemma sequence_map_seq_none {A : Type} (g : nat -> option A) (n s : nat) :
  sequence (map g (seq s n)) = None ->
  exists c, (c < n)%nat /\ g (s + c)%nat = None.
Proof.
  revert s. induction n as [ | n IH ]; intros s H; simpl in H.
  - discriminate.
  - destruct (g s) as [ a | ] eqn:Egs.
    + destruct (sequence _) as [ r' | ] eqn:Eseq; [ discriminate | ].
      destruct (IH _ Eseq) as [c [Hc Hg]]. exists (S c).
      split; [ lia | ]. rewrite <- Hg. f_equal. lia.
    + exists 0%nat. split; [ lia | ]. now rewrite Nat.add_0_r.
Qed.

(** The equations handed to the elimination for the unit vector [c]. *)
Lemma splu_equations (n : nat) (f : nat -> nat -> Qc) (c : nat) :
  combine (rows (tabulate n n f)) (unit_vector n c)
  = map (fun i => (map (f i) (seq 0 n), if (i =? c)%nat then 1 else 0)) (seq 0 n).
Proof.
  unfold tabulate, unit_vector. simpl rows. apply combine_map_map.
Qed.

Lemma splu_equations_shape (n : nat) (f : nat -> nat -> Qc) (c : nat) :
  length (combine (rows (tabulate n n f)) (unit_vector n c)) = n /\
  Forall (fun e : equation => length (fst e) = n)
         (combine (rows (tabulate n n f)) (unit_vector n c)).
Proof.
  rewrite splu_equations. split.
  - now rewrite length_map, length_seq.
  - apply Forall_forall. intros e He. apply in_map_iff in He.
    destruct He as [i [<- _]]. simpl. now rewrite length_map, length_seq.
Qed.

(** The stored columns are the columns of a right inverse. *)
Lemma splu_columns (n : nat) (f : nat -> nat -> Qc) (F : factor) :
  splu (tabulate n n f) = OK F ->
  order F = n /\
  forall c, (c < n)%nat ->
    length (nth c (columns F) []) = n /\
    forall i, (i < n)%nat ->
      bigsum n (fun j => f i j * nth j (nth c (columns F) []) 0)
      = if (i =? c)%nat then 1 else 0.
Proof.
  unfold splu. change (nrows (tabulate n n f)) with n.
  change (ncols (tabulate n n f)) with n. rewrite Nat.eqb_refl.
  destruct (sequence _) as [ cols | ] eqn:Eseq; [ | discriminate ].
  intros H. injection H as <-. simpl. split; [ reflexivity | ].
  intros c Hc.
  destruct (sequence_map_seq _ _ _ _ [] Eseq) as [_ Hcol].
  specialize (Hcol c Hc). simpl in Hcol.
  destruct (splu_equations_shape n f c) as [Hlen Hrows].
  destruct (gauss_sound _ _ _ Hlen Hrows Hcol) as [Hx Hsat].
  split; [ exact Hx | ]. intros i Hi.
  rewrite splu_equations, Forall_forall in Hsat.
  assert (Hin : In i (seq 0 n)) by (apply in_seq; lia).
  specialize (Hsat _ (in_map _ _ i Hin)).
  unfold satisfies in Hsat. simpl in Hsat.
  now rewrite dotp_bigsum in Hsat by exact Hx.
Qed.

Lemma map_seq_zero (n : nat) (g : nat -> Qc) :
  (forall i, (i < n)%nat -> g i = 0) -> map g (seq 0 n) = repeat 0 n.
Proof.
  intros H. apply (nth_ext _ _ 0 0).
  - now rewrite length_map, length_seq, repeat_length.
  - intros i Hi. rewrite length_map, length_seq in Hi.
    rewrite nth_map_seq, nth_repeat by exact Hi. now apply H.
Qed.

(** A nonsingular matrix is factored. *)
Lemma splu_nonsingular (n : nat) (f : nat -> nat -> Qc) :
  nonsingular (tabulate n n f) -> exists F, splu (tabulate n n f) = OK F.
Proof.
  intros Hns. unfold splu. change (nrows (tabulate n n f)) with n.
  change (ncols (tabulate n n f)) with n. rewrite Nat.eqb_refl.
  destruct (sequence _) as [ cols | ] eqn:Eseq; [ now eexists | exfalso ].
  apply sequence_map_seq_none in Eseq. destruct Eseq as [c [Hc Hnone]].
  simpl in Hnone.
  destruct (splu_equations_shape n f c) as [Hlen Hrows].
  destruct (gauss_none _ _ Hlen Hrows Hnone) as [x [Hx [Hnz Hker]]].
  apply Hnz, Hns; [ exact Hx | ].
  change (nrows (tabulate n n f)) with n.
  rewrite dot_tabulate by exact Hx. f_equal.
  apply map_seq_zero. intros i Hi.
  rewrite splu_equations, Forall_forall in Hker.
  assert (Hin : In i (seq 0 n)) by (apply in_seq; lia).
  specialize (Hker _ (in_map _ _ i Hin)).
  simpl in Hker. now rewrite dotp_bigsum in Hker by exact Hx.
Qed.


(** Solving with the factor of [A] returns a solution of [A x = b]. *)
Lemma lu_solve_correct (n : nat) (f : nat -> nat -> Qc) (F : factor) (b : vector) :
  splu (tabulate n n f) = OK F ->
  length b = n ->
  exists x : vector,
    lu_solve F b = OK x /\ length x = n /\ dot (tabulate n n f) x = OK b.
Proof.
  intros HF Hb. destruct (splu_columns n f F HF) as [Hord Hcols].
  unfold lu_solve. rewrite Hord, Hb, Nat.eqb_refl.
  eexists. split; [ reflexivity | ].
  split; [ now rewrite length_map, length_seq | ].
  rewrite dot_tabulate by (now rewrite length_map, length_seq). f_equal.
  etransitivity; [ | symmetry; apply list_as_map_seq ]. rewrite Hb.
  apply map_seq_ext. intros i Hi.
  transitivity (bigsum n (fun j => bigsum n (fun c =>
                  f i j * nth j (nth c (columns F) []) 0 * nth c b 0))).
  { apply bigsum_ext. intros j Hj. rewrite nth_map_seq by exact Hj.
    unfold bigsum. rewrite <- vsum_map_scale. apply vsum_map_ext.
    intros c _. ring. }
  rewrite bigsum_swap.
  transitivity (bigsum n (fun c => (if (i =? c)%nat then 1 else 0) * nth c b 0)).
  { apply bigsum_ext. intros c Hc.
    destruct (Hcols c Hc) as [_ Hdelta]. rewrite <- (Hdelta i Hi).
    unfold bigsum. rewrite (Qcmult_comm (vsum _)), <- vsum_map_scale.
    apply vsum_map_ext. intros j _. ring. }
  rewrite (bigsum_single n i); [ | exact Hi | ].
  - rewrite Nat.eqb_refl. ring.
  - intros c Hc Hne. destruct (Nat.eqb_spec i c); [ congruence | ring ].
Qed.

(** ** The implicit system *)

Lemma tocsc_tabulate (m n : nat) (f : nat -> nat -> Qc) :
  tocsc (tabulate m n f) = tabulate m n f.
Proof.
  unfold tocsc. change (nrows (tabulate m n f)) with m.
  change (ncols (tabulate m n f)) with n.
  apply tabulate_ext. intros i j Hi Hj. now apply entry_tabulate.
Qed.

Lemma shape_rows_cols (A : spmatrix) (m n : nat) :
  shape A = (m, n) -> nrows A = m /\ ncols A = n.
Proof.
  unfold nrows, ncols. now intros ->.
Qed.

(** [A0] entry by entry. *)
Lemma explicit_matrix_entries (n : nat) (M K : spmatrix) (theta dt : Qc) :
  shape M = (n, n) -> shape K = (n, n) -> dt <> 0 ->
  explicit_matrix M K theta dt =
    OK (tabulate n n
          (fun i j => - (1 / dt) * entry M i j + (1 - theta) * entry K i j)).
Proof.
  intros HM HK Hdt.
  destruct (shape_rows_cols M n n HM) as [HMr HMc].
  destruct (shape_rows_cols K n n HK) as [HKr HKc].
  unfold explicit_matrix, sdiv.
  destruct (Qc_eq_dec dt 0) as [ | _ ]; [ contradiction | ].
  simpl bind. unfold sadd, same_shape, smul, sneg.
  rewrite HMr, HMc, HKr, HKc.
  change (nrows (tabulate n n ?f)) with n. change (ncols (tabulate n n ?f)) with n.
  change (nrows (tabulate n n ?f)) with n. change (ncols (tabulate n n ?f)) with n.
  rewrite Nat.eqb_refl. simpl andb. cbv iota. f_equal.
  apply tabulate_ext. intros i j Hi Hj. rewrite !entry_tabulate by assumption. ring.
Qed.

(** [A1] entry by entry. *)
Lemma implicit_matrix_entries (n : nat) (M K : spmatrix) (theta dt : Qc) :
  shape M = (n, n) -> shape K = (n, n) -> dt <> 0 ->
  implicit_matrix M K theta dt =
    OK (tabulate n n (fun i j => 1 / dt * entry M i j + theta * entry K i j)).
Proof.
  intros HM HK Hdt.
  destruct (shape_rows_cols M n n HM) as [HMr HMc].
  destruct (shape_rows_cols K n n HK) as [HKr HKc].
  unfold implicit_matrix, sdiv.
  destruct (Qc_eq_dec dt 0) as [ | _ ]; [ contradiction | ].
  simpl bind. unfold sadd, same_shape, smul.
  rewrite HMr, HMc, HKr, HKc.
  change (nrows (tabulate n n ?f)) with n. change (ncols (tabulate n n ?f)) with n.
  rewrite Nat.eqb_refl. simpl andb. cbv iota. f_equal.
  apply tabulate_ext. intros i j Hi Hj. now rewrite !entry_tabulate by assumption.
Qed.

Lemma Qclt_not_zero (x : Qc) : 0 < x -> x <> 0.
Proof.
  intros H ->. now apply (Qclt_not_eq 0 0).
Qed.

(** ** Time marching *)

Lemma length_set_nth {A : Type} (l : list A) (i : nat) (a : A) :
  length (set_nth l i a) = length l.
Proof.
  revert i. induction l as [ | x l IH ]; intros [ | i ]; simpl; auto.
Qed.

Lemma nth_set_nth_eq {A : Type} (l : list A) (i : nat) (a d : A) :
  (i < length l)%nat -> nth i (set_nth l i a) d = a.
Proof.
  revert i. induction l as [ | x l IH ]; intros [ | i ] H; simpl in *;
    try lia; [ reflexivity | apply IH; lia ].
Qed.

Lemma nth_set_nth_neq {A : Type} (l : list A) (i j : nat) (a d : A) :
  i <> j -> nth j (set_nth l i a) d = nth j l d.
Proof.
  revert i j. induction l as [ | x l IH ]; intros [ | i ] [ | j ] H; simpl;
    try reflexivity; try congruence.
  apply IH. congruence.
Qed.

Lemma getitem_nth (q : list vector) (i : nat) :
  (i < length q)%nat -> getitem q i = OK (nth i q []).
Proof.
  intros Hi. unfold getitem.
  destruct (nth_error q i) as [ v | ] eqn:E.
  - now rewrite (nth_error_nth _ _ _ E).
  - apply nth_error_None in E. lia.
Qed.

Lemma setitem_row (q : list vector) (i : nat) (v : vector) :
  (i < length q)%nat -> length v = length (nth i q []) ->
  setitem q i v = OK (set_nth q i v).
Proof.
  intros Hi Hv. unfold setitem.
  destruct (nth_error q i) as [ old | ] eqn:E.
  - apply (nth_error_nth q i []) in E. rewrite E in Hv.
    now rewrite Hv, Nat.eqb_refl.
  - apply nth_error_None in E. lia.
Qed.

Section Marching.

Variable sys : ImplicitSystem.
Variable n : nat.
Variable qinit : vector.
Variable nt : nat.

(** The update succeeds on every state of the mesh size. *)
Hypothesis step_total :
  forall v : vector, length v = n ->
    exists x : vector, step sys v = OK x /\ length x = n.

Lemma for_range_marched (count start : nat) (q : list vector) :
  (start + count < nt + 1)%nat -> (count = 0%nat \/ start + count < nt)%nat ->
  marched sys n qinit nt start q ->
  exists q' : list vector,
    for_range start count
      (fun i q =>
         qi <- getitem q i ;;
         r <- dot (A0 sys) qi ;;
         x <- solve sys (vneg r) ;;
         setitem q (i + 1) x) q = OK q' /\
    marched sys n qinit nt (start + count) q'.
Proof.
  revert start q. induction count as [ | count IH ]; intros start q Hb Hb' Hm.
  - exists q. rewrite Nat.add_0_r. now split.
  - destruct Hm as [Hlen [Hrows [H0 [Hdone Hrest]]]].
    assert (Hstart : (start + 1 < nt + 1)%nat) by lia.
    destruct (step_total (nth start q [])) as [x [Hx Hxl]];
      [ apply Hrows; lia | ].
    simpl for_range.
    rewrite getitem_nth by lia. simpl bind.
    unfold step in Hx.
    destruct (dot (A0 sys) (nth start q [])) as [ r | ] eqn:Edot;
      [ | discriminate Hx ].
    simpl bind in Hx |- *. rewrite Hx. simpl bind.
    rewrite setitem_row by (rewrite ?Hrows; lia). simpl bind.
    destruct (IH (S start) (set_nth q (start + 1) x)) as [q' [Hrun Hm']];
      [ lia | lia | | ].
    + split; [ now rewrite length_set_nth | ].
      split.
      { intros i Hi. destruct (Nat.eq_dec (start + 1) i) as [<- | Hne].
        - rewrite nth_set_nth_eq by lia. exact Hxl.
        - rewrite nth_set_nth_neq by exact Hne. now apply Hrows. }
      split; [ rewrite nth_set_nth_neq by lia; exact H0 | ].
      split.
      { intros i Hi. destruct (Nat.eq_dec i start) as [-> | Hne].
        - rewrite nth_set_nth_neq by lia. rewrite nth_set_nth_eq by lia.
          unfold step. rewrite Edot. exact Hx.
        - rewrite !nth_set_nth_neq by lia. apply Hdone. lia. }
      intros j Hj. rewrite nth_set_nth_neq by lia. apply Hrest. lia.
    + exists q'. split; [ exact Hrun | ].
      now replace (start + S count)%nat with (S start + count)%nat by lia.
Qed.

(** What the loop leaves in the array: the initial state, [nt - 1]
    updates, and a last row that is never written. *)
Lemma timeseries_marched :
  length qinit = n ->
  exists q : list vector,
    timeseries sys qinit nt = OK q /\
    length q = (nt + 1)%nat /\
    nth 0 q [] = qinit /\
    (forall i, (i + 1 < nt)%nat -> step sys (nth i q []) = OK (nth (i + 1) q [])) /\
    ((1 <= nt)%nat -> nth nt q [] = repeat 0 n).
Proof.
  intros Hq. unfold timeseries, zeros2. rewrite Hq.
  rewrite setitem_row.
  2: { rewrite repeat_length. lia. }
  2: { rewrite Nat.add_1_r. simpl. now rewrite repeat_length. }
  simpl bind.
  destruct (for_range_marched (nt - 1) 0 (set_nth (repeat (repeat 0 n) (nt + 1)) 0 qinit))
    as [q [Hrun Hm]]; [ lia | lia | | ].
  - split; [ now rewrite length_set_nth, repeat_length | ].
    split.
    { intros i Hi. destruct i as [ | i ].
      - rewrite nth_set_nth_eq by (rewrite repeat_length; lia). exact Hq.
      - rewrite nth_set_nth_neq by lia.
        rewrite nth_repeat_lt by lia. apply repeat_length. }
    split; [ apply nth_set_nth_eq; rewrite repeat_length; lia | ].
    split; [ intros i Hi; lia | ].
    intros j Hj. rewrite nth_set_nth_neq by lia. apply nth_repeat_lt. lia.
  - exists q. split; [ exact Hrun | ].
    destruct Hm as [Hlen [_ [H0 [Hdone Hrest]]]]. simpl in Hdone, Hrest.
    split; [ exact Hlen | ]. split; [ exact H0 | ].
    split; [ intros i Hi; apply Hdone; lia | ].
    intros Hnt. apply Hrest. lia.
Qed.

End Marching.

(** *** Evaluating the loop *)

Lemma vector_this_inj (a b : vector) : map this a = map this b -> a = b.
Proof.
  revert b. induction a as [ | x a IH ]; intros [ | y b ] H; simpl in H;
    try discriminate; [ reflexivity | ].
  injection H as Hxy Hab. f_equal; [ | now apply IH ].
  apply Qc_is_canon. now rewrite Hxy.
Qed.

Lemma series_this_inj (a b : list vector) :
  map (map this) a = map (map this) b -> a = b.
Proof.
  revert b. induction a as [ | x a IH ]; intros [ | y b ] H; simpl in H;
    try discriminate; [ reflexivity | ].
  injection H as Hxy Hab. f_equal; [ now apply vector_this_inj | now apply IH ].
Qed.

(** Comparing a computed state or series with its expected fractions. *)
Lemma result_vector_eq (r : result vector) (v : vector) :
  match r with
  | OK x => map this x = map this v
  | Raise _ => False
  end -> r = OK v.
Proof.
  destruct r as [ x | e ]; [ | contradiction ].
  intros H. f_equal. now apply vector_this_inj.
Qed.

Lemma result_series_eq (r : result (list vector)) (qs : list vector) :
  match r with
  | OK q => map (map this) q = map (map this) qs
  | Raise _ => False
  end -> r = OK qs.
Proof.
  destruct r as [ q | e ]; [ | contradiction ].
  intros H. f_equal. now apply series_this_inj.
Qed.

Lemma built_eq (r : result (ImplicitSystem * nat)) (w : nat) :
  match r with
  | OK (_, w') => w' = w
  | Raise _ => False
  end -> r = OK (built r, w).
Proof.
  destruct r as [ [sys w'] | e ]; [ now intros <- | contradiction ].
Qed.

(** C1, the failing run: the system of four points marched for
    [nt = 2] steps.  The array has [nt + 1 = 3] rows and row 1 is the
    update of row 0, but the loop stops after [nt - 1] iterations: row 2 is
    still zero, while the update of row 1 is not zero. *)
Theorem timeseries_last_state_unwritten :
  notebook_system 4 1 (frac 1 2) 1 1 (frac 1 2) 0%nat = OK (example_system, 1%nat) /\
  timeseries example_system [1; 0; 0; 0] 2
  = OK [[1; 0; 0; 0];
        [frac 7 20; frac 9 20; frac 3 20; frac 1 20];
        [0; 0; 0; 0]] /\
  step example_system [1; 0; 0; 0]
  = OK [frac 7 20; frac 9 20; frac 3 20; frac 1 20] /\
  step example_system [frac 7 20; frac 9 20; frac 3 20; frac 1 20]
  = OK [frac 19 100; frac 33 100; frac 31 100; frac 17 100].
Proof.
  split; [ unfold example_system; apply built_eq; vm_compute; reflexivity | ].
  split; [ apply result_series_eq; vm_compute; reflexivity | ].
  split; apply result_vector_eq; vm_compute; reflexivity.
Qed.

(** *** The loop on a system built by the notebook *)

(** What a successful build returns. *)
Lemma implicit_system_inv
    (n : nat) (M K : spmatrix) (theta dt : Qc) (w w' : nat) (sys : ImplicitSystem) :
  shape M = (n, n) -> shape K = (n, n) ->
  implicit_system M K theta dt w = OK (sys, w') ->
  exists F : factor,
    splu (tabulate n n (fun i j => 1 / dt * entry M i j + theta * entry K i j))
    = OK F /\
    sys = mk_system
            (tabulate n n (fun i j => - (1 / dt) * entry M i j
                                      + (1 - theta) * entry K i j))
            (tabulate n n (fun i j => 1 / dt * entry M i j + theta * entry K i j))
            (lu_solve F) /\
    w' = S w.
Proof.
  intros HM HK H.
  destruct (Qc_eq_dec dt 0) as [Hz | Hdt].
  - exfalso. revert H.
    unfold implicit_system, pbind, lift, explicit_matrix, sdiv.
    destruct (Qc_eq_dec dt 0); [ discriminate | contradiction ].
  - revert H. unfold implicit_system, pbind, lift, factorized.
    rewrite (explicit_matrix_entries n), (implicit_matrix_entries n) by assumption.
    rewrite tocsc_tabulate.
    destruct (splu _) as [ F | e ]; [ | discriminate ].
    intros [= <- <-]. now exists F.
Qed.





(** *** The matrices of the notebook, entry by entry *)


(** [K] entry by entry. *)
Lemma spatial_terms_entries (n : nat) (u nu dx : Qc) (D L : spmatrix) :
  shape D = (n, n) -> shape L = (n, n) -> dx <> 0 ->
  spatial_terms u nu dx D L =
    OK (tabulate n n
          (fun i j => u / dx * entry D i j - nu / (dx * dx) * entry L i j)).
Proof.
  intros HD HL Hdx.
  destruct (shape_rows_cols D n n HD) as [HDr HDc].
  destruct (shape_rows_cols L n n HL) as [HLr HLc].
  unfold spatial_terms, pydiv.
  destruct (Qc_eq_dec dx 0) as [ | _ ]; [ contradiction | ].
  destruct (Qc_eq_dec (dx * dx) 0) as [Hz | _ ].
  { destruct (Qcmult_integral _ _ Hz); contradiction. }
  simpl bind. unfold ssub, same_shape, smul.
  rewrite HDr, HDc, HLr, HLc.
  change (nrows (tabulate n n ?f)) with n. change (ncols (tabulate n n ?f)) with n.
  rewrite Nat.eqb_refl. simpl andb. cbv iota. f_equal.
  apply tabulate_ext. intros i j Hi Hj. now rewrite !entry_tabulate by assumption.
Qed.

Lemma advection_matrix_periodic (nx : nat) :
  (3 <= nx)%nat ->
  advection_matrix nx =
    OK (tabulate nx nx
          (fun i j => periodic_coeff [frac (-1) 2; 0; frac 1 2] nx
                        (cyc nx (Z.of_nat j - Z.of_nat i)))).
Proof.
  intros Hnx. unfold advection_matrix, stencil_matrix.
  change (gradient_stencil 1 2) with (OK [frac (-1) 2; 0; frac 1 2]).
  unfold bind. apply (sparse_circulant_periodic _ nx 1); [ reflexivity | lia ].
Qed.

Lemma diffusion_matrix_periodic (nx : nat) :
  (3 <= nx)%nat ->
  diffusion_matrix nx =
    OK (tabulate nx nx
          (fun i j => periodic_coeff [1; frac (-2) 1; 1] nx
                        (cyc nx (Z.of_nat j - Z.of_nat i)))).
Proof.
  intros Hnx. unfold diffusion_matrix, stencil_matrix.
  change (gradient_stencil 2 2) with (OK [1; frac (-2) 1; 1]).
  unfold bind. apply (sparse_circulant_periodic _ nx 1); [ reflexivity | lia ].
Qed.

(** * Further properties of the code *)

(** ** The stencil table *)

(** Which key a failed lookup reports: the outer dictionary is indexed
    first, so a missing [grad] is reported whatever [order] is, and
    [order] is reported only when [grad] is present. *)
Theorem gradient_stencil_key_error (grad order : Z) (e : exn) :
  gradient_stencil grad order = Raise e ->
  (e = KeyError grad /\ ~ In grad [1; 2; 4]%Z) \/
  (e = KeyError order /\ In grad [1; 2; 4]%Z /\ ~ In order [2; 4; 6]%Z).
Proof.
  intros H.
  destruct (Z.eq_dec grad 1) as [Hg1 | Hg1];
    [ | destruct (Z.eq_dec grad 2) as [Hg2 | Hg2];
        [ | destruct (Z.eq_dec grad 4) as [Hg4 | Hg4] ] ].
  4: { left. rewrite gradient_stencil_bad_grad in H by assumption.
       injection H as <-. split; [ reflexivity | ]. simpl. lia. }
  all: right;
    destruct (Z.eq_dec order 2) as [Ho2 | Ho2];
      [ subst; discriminate H
      | destruct (Z.eq_dec order 4) as [Ho4 | Ho4];
        [ subst; discriminate H
        | destruct (Z.eq_dec order 6) as [Ho6 | Ho6];
          [ subst; discriminate H | ] ] ];
    rewrite gradient_stencil_bad_order in H by (assumption || tauto);
    injection H as <-; simpl; repeat split; try tauto; lia.
Qed.

Lemma gradient_stencil_key_error_witness :
  (KeyError 3 = KeyError 3 /\ ~ In 3%Z [1; 2; 4]%Z) \/
  (KeyError 3 = KeyError 7 /\ In 3%Z [1; 2; 4]%Z /\ ~ In 7%Z [2; 4; 6]%Z).
Proof.
  apply (gradient_stencil_key_error 3 7 (KeyError 3)). reflexivity.
Defined.

Lemma gradient_stencil_cases (grad order : Z) (stencil : vector) :
  gradient_stencil grad order = OK stencil ->
  In (grad, order)
     [(1, 2); (1, 4); (1, 6); (2, 2); (2, 4); (2, 6); (4, 2); (4, 4); (4, 6)]%Z.
Proof.
  intros H. destruct (supported_dec grad order) as [Hs | Hns].
  - now apply supported_cases.
  - apply gradient_stencil_missing in Hns. destruct Hns as [key Hkey]. congruence.
Qed.

Ltac stencil_cases H :=
  let Hc := fresh "Hc" in
  pose proof (gradient_stencil_cases _ _ _ H) as Hc; simpl in Hc;
  repeat (destruct Hc as [Hc | Hc];
          [ injection Hc as <- <-; injection H as <- | ]);
  [ .. | contradiction ].

(** Order of accuracy: the stencil for the [grad]-th gradient at order
    [order] differentiates the monomials of degree below [grad + order]
    exactly: its [m]-th moment is [grad!] for [m = grad] and zero for every
    other [m < grad + order]. *)
Theorem gradient_stencil_accuracy (grad order : Z) (stencil : vector) (m : nat) :
  gradient_stencil grad order = OK stencil ->
  (Z.of_nat m < grad + order)%Z ->
  moment stencil m = if (Z.of_nat m =? grad)%Z then factorial (Z.to_nat grad) else 0.
Proof.
  intros H Hm. stencil_cases H;
    do 10 (destruct m as [ | m ]; [ first [ qc_compute | lia ] | ]); lia.
Qed.

Lemma gradient_stencil_accuracy_witness :
  moment [frac (-1) 12; frac 4 3; frac (-5) 2; frac 4 3; frac (-1) 12] 2
  = if (Z.of_nat 2 =? 2)%Z then factorial (Z.to_nat 2) else 0.
Proof.
  apply (gradient_stencil_accuracy 2 4); [ reflexivity | lia ].
Defined.

(** The stencils are centred: the length is [2k+1] with
    [2k+1 = order + 2*((grad+1)/2) - 1], and mirroring about the centre
    keeps the coefficients for an even [grad] and negates them for an odd
    one. *)
Theorem gradient_stencil_centred (grad order : Z) (stencil : vector) (t : nat) :
  gradient_stencil grad order = OK stencil ->
  (t < length stencil)%nat ->
  length stencil = (2 * half_width_of stencil + 1)%nat /\
  (Z.of_nat (length stencil) = order + 2 * ((grad + 1) / 2) - 1)%Z /\
  nth (2 * half_width_of stencil - t) stencil 0
  = (if Z.even grad then 1 else - (1)) * nth t stencil 0.
Proof.
  intros H Ht. stencil_cases H;
    (split; [ reflexivity | ]); (split; [ reflexivity | ]);
    simpl in Ht;
    do 9 (destruct t as [ | t ]; [ first [ qc_compute | lia ] | ]); lia.
Qed.

Lemma gradient_stencil_centred_witness :
  let s : vector := [frac (-1) 2; 0; frac 1 2] in
  length s = (2 * half_width_of s + 1)%nat /\
  (Z.of_nat (length s) = 2 + 2 * ((1 + 1) / 2) - 1)%Z /\
  nth (2 * half_width_of s - 0) s 0
  = (if Z.even 1 then 1 else - (1)) * nth 0%nat s 0.
Proof.
  apply (gradient_stencil_centred 1 2); [ reflexivity | simpl; lia ].
Defined.

(** ** Assembly *)

Lemma sparse_circulant_single (c : Qc) (n : nat) :
  exists A : spmatrix, sparse_circulant [c] n = OK A /\ shape A = (n, n).
Proof.
  unfold sparse_circulant. rewrite (spdiags_ok _ _ n).
  - eexists. split; reflexivity.
  - discriminate.
  - repeat constructor. now rewrite length_map, repeat_length.
  - reflexivity.
  - repeat constructor. intros [].
Qed.

Lemma odd_length_half (ns : nat) :
  Nat.even ns = false -> exists k : nat, ns = (2 * k + 1)%nat.
Proof.
  intros H. assert (Hodd : Nat.odd ns = true)
    by (unfold Nat.odd; now rewrite H).
  apply Nat.odd_spec in Hodd. destruct Hodd as [k ->]. now exists k.
Qed.

(** When the assembly succeeds: exactly for a stencil of odd length
    [2k+1] that is a single coefficient ([k = 0], any [n]) or fits the mesh
    without overlap ([2k < n]); the matrix is then [n]-by-[n].  Every other
    call raises [ValueError]. *)
Theorem sparse_circulant_domain (stencil : vector) (n : nat) :
  ((exists k : nat,
      length stencil = (2 * k + 1)%nat /\ (k = 0%nat \/ 2 * k < n)%nat) ->
   exists A : spmatrix, sparse_circulant stencil n = OK A /\ shape A = (n, n)) /\
  (~ (exists k : nat,
        length stencil = (2 * k + 1)%nat /\ (k = 0%nat \/ 2 * k < n)%nat) ->
   sparse_circulant stencil n = Raise ValueError).
Proof.
  split.
  - intros [k [Hlen Hk]]. destruct (Nat.eq_dec k 0) as [-> | Hk0].
    + destruct stencil as [ | c [ | ? ? ] ]; try discriminate Hlen.
      apply sparse_circulant_single.
    + rewrite (sparse_circulant_periodic stencil n k) by (assumption || lia).
      eexists. split; reflexivity.
  - intros Hno.
    destruct (Nat.eq_dec (length stencil) 1) as [H1 | H1].
    { exfalso. apply Hno. exists 0%nat. split; [ exact H1 | now left ]. }
    destruct (Nat.even (length stencil)) eqn:Heven.
    + rewrite sparse_circulant_general by exact H1. cbv zeta. now rewrite Heven.
    + destruct (odd_length_half _ Heven) as [k Hk].
      apply (sparse_circulant_overlap stencil n k); [ exact Hk | lia | ].
      destruct (le_lt_dec n (2 * k)) as [Hle | Hlt]; [ exact Hle | ].
      exfalso. apply Hno. exists k. split; [ exact Hk | now right ].
Qed.

Lemma cyc_id (n m : nat) : (m < n)%nat -> cyc n (Z.of_nat m) = m.
Proof.
  intros H. rewrite cyc_small by lia. apply Nat2Z.id.
Qed.

(** The coefficients of row zero against any weights. *)
Lemma periodic_coeff_weighted (stencil : vector) (n k : nat) (g : nat -> Qc) :
  length stencil = (2 * k + 1)%nat -> (2 * k < n)%nat ->
  bigsum n (fun m => periodic_coeff stencil n m * g m)
  = bigsum (2 * k + 1)
      (fun t => nth t stencil 0 * g (cyc n (Z.of_nat t - Z.of_nat k))).
Proof.
  intros Hlen Hn. unfold periodic_coeff. rewrite Hlen, half_width.
  transitivity
    (bigsum n (fun m => (if (m <=? k)%nat then nth (k + m) stencil 0 else 0) * g m)
     + bigsum n (fun m => (if (n - k <=? m)%nat then nth (m + k - n) stencil 0 else 0)
                          * g m)).
  { unfold bigsum. rewrite <- vsum_map_plus. apply vsum_map_ext. intros m _. ring. }
  unfold bigsum.
  replace (2 * k + 1)%nat with (k + (k + 1))%nat by lia.
  rewrite (seq_app k (k + 1)), map_app, vsum_app, Qcplus_comm. f_equal.
  - (* the left half, wrapped *)
    replace n with ((n - k) + k)%nat at 1 by lia.
    rewrite seq_app, map_app, vsum_app.
    rewrite (vsum_map_zero _ (seq 0 (n - k))).
    + rewrite Qcplus_0_l, (seq_from (0 + (n - k)) k), map_map.
      apply vsum_map_ext. intros t Ht. apply in_seq in Ht.
      replace (n - k <=? 0 + (n - k) + t)%nat with true
        by (symmetry; apply Nat.leb_le; lia).
      rewrite cyc_wrap by lia. f_equal; f_equal; lia.
    + intros m Hm. apply in_seq in Hm.
      replace (n - k <=? m)%nat with false by (symmetry; apply Nat.leb_gt; lia).
      ring.
  - (* the centre and the right half *)
    replace n with ((k + 1) + (n - k - 1))%nat at 1 by lia.
    rewrite seq_app, map_app, vsum_app.
    rewrite (vsum_map_zero _ (seq (0 + (k + 1)) (n - k - 1))).
    + rewrite Qcplus_0_r, (seq_from (0 + k) (k + 1)), map_map.
      apply vsum_map_ext. intros m Hm. apply in_seq in Hm.
      replace (m <=? k)%nat with true by (symmetry; apply Nat.leb_le; lia).
      rewrite cyc_small by lia. f_equal; f_equal; lia.
    + intros m Hm. apply in_seq in Hm.
      replace (m <=? k)%nat with false by (symmetry; apply Nat.leb_gt; lia).
      ring.
Qed.

Lemma cyc_add_inj (n i m m' : nat) :
  (m < n)%nat -> (m' < n)%nat ->
  cyc n (Z.of_nat i + Z.of_nat m) = cyc n (Z.of_nat i + Z.of_nat m') -> m = m'.
Proof.
  intros Hm Hm' H. apply (cyc_shift_inj n (- Z.of_nat i)); try assumption.
  replace (Z.of_nat m - - Z.of_nat i)%Z with (Z.of_nat i + Z.of_nat m)%Z by ring.
  now replace (Z.of_nat m' - - Z.of_nat i)%Z with (Z.of_nat i + Z.of_nat m')%Z by ring.
Qed.

(** The product of a periodic matrix with a vector, against the
    coefficients of row zero. *)
Lemma periodic_dot_entry (n : nat) (a : nat -> Qc) (q : vector) (i : nat) :
  (i < n)%nat ->
  bigsum n (fun j => a (cyc n (Z.of_nat j - Z.of_nat i)) * nth j q 0)
  = bigsum n (fun m => a m * nth (cyc n (Z.of_nat i + Z.of_nat m)) q 0).
Proof.
  intros Hi.
  rewrite <- (bigsum_reindex n (fun m => cyc n (Z.of_nat i + Z.of_nat m))
                (fun j => a (cyc n (Z.of_nat j - Z.of_nat i)) * nth j q 0)).
  - apply bigsum_ext. intros m Hm. f_equal. f_equal.
    rewrite <- (cyc_id n m Hm) at 2. apply cyc_congr.
    rewrite cyc_of_nat by lia. rewrite Zminus_mod_idemp_l. f_equal. lia.
  - intros m _. apply cyc_lt. lia.
  - intros m m' Hm Hm'. now apply cyc_add_inj.
Qed.

(** What the assembled matrix does to a vector: at every point it applies
    the stencil to the periodic neighbourhood,
    [(A q)[i] = sum_t stencil[t] * q[(i + t - k) mod n]]. *)
Theorem sparse_circulant_applies_stencil
    (stencil : vector) (n k : nat) (A : spmatrix) (q : vector) :
  length stencil = (2 * k + 1)%nat ->
  (0 < n)%nat ->
  sparse_circulant stencil n = OK A ->
  length q = n ->
  dot A q = OK (map (apply_stencil stencil n q) (seq 0 n)).
Proof.
  intros Hlen Hn HA Hq.
  destruct (sparse_circulant_inv stencil n k A Hlen Hn HA) as [Hk ->].
  rewrite dot_tabulate by exact Hq. f_equal.
  apply map_seq_ext. intros i Hi.
  rewrite (periodic_dot_entry n (periodic_coeff stencil n) q i Hi).
  rewrite (periodic_coeff_weighted stencil n k) by assumption.
  unfold apply_stencil, half_width_of. rewrite Hlen, half_width.
  apply bigsum_ext. intros t Ht. f_equal. f_equal.
  apply cyc_congr. rewrite cyc_of_nat by lia.
  rewrite Zplus_mod_idemp_r. f_equal. lia.
Qed.

Lemma sparse_circulant_applies_stencil_witness :
  dot example_L example_q
  = OK (map (apply_stencil [1; frac (-2) 1; 1] 8 example_q) (seq 0 8)).
Proof.
  apply (sparse_circulant_applies_stencil [1; frac (-2) 1; 1] 8 1);
    [ reflexivity | lia | vm_compute; reflexivity | reflexivity ].
Defined.

Lemma gradient_stencil_mirror (grad order : Z) (stencil : vector) :
  gradient_stencil grad order = OK stencil ->
  exists k : nat,
    length stencil = (2 * k + 1)%nat /\
    forall t, (t <= 2 * k)%nat ->
      nth (2 * k - t) stencil 0
      = (if Z.even grad then 1 else - (1)) * nth t stencil 0.
Proof.
  intros H. stencil_cases H;
    first [ exists 1%nat; split; [ reflexivity | ]
          | exists 2%nat; split; [ reflexivity | ]
          | exists 3%nat; split; [ reflexivity | ]
          | exists 4%nat; split; [ reflexivity | ] ];
    intros t Ht;
    do 9 (destruct t as [ | t ]; [ first [ qc_compute | lia ] | ]); lia.
Qed.

Lemma periodic_coeff_mirror (stencil : vector) (n k : nat) (sgn : Qc) (m : nat) :
  length stencil = (2 * k + 1)%nat -> (2 * k < n)%nat ->
  (forall t, (t <= 2 * k)%nat ->
     nth (2 * k - t) stencil 0 = sgn * nth t stencil 0) ->
  (m < n)%nat ->
  periodic_coeff stencil n (cyc n (- Z.of_nat m))
  = sgn * periodic_coeff stencil n m.
Proof.
  intros Hlen Hn Hsym Hm. unfold periodic_coeff. rewrite Hlen, half_width.
  destruct m as [ | m ].
  - simpl Z.of_nat. simpl Z.opp. unfold cyc. rewrite Z.mod_0_l by lia. simpl Z.to_nat.
    replace (n - k <=? 0)%nat with false by (symmetry; apply Nat.leb_gt; lia).
    simpl Nat.leb. rewrite Nat.add_0_r.
    pose proof (Hsym k ltac:(lia)) as Hk.
    replace (2 * k - k)%nat with k in Hk by lia.
    transitivity (sgn * nth k stencil 0); [ rewrite <- Hk | ]; ring.
  - rewrite cyc_wrap by lia.
    replace (Z.to_nat (- Z.of_nat (S m) + Z.of_nat n)) with (n - S m)%nat by lia.
    destruct (le_lt_dec (S m) k) as [Hle | Hgt].
    + pose proof (Hsym (k + S m)%nat ltac:(lia)) as Hs.
      replace (2 * k - (k + S m))%nat with (k - S m)%nat in Hs by lia.
      replace (n - S m <=? k)%nat with false by (symmetry; apply Nat.leb_gt; lia).
      replace (n - k <=? n - S m)%nat with true by (symmetry; apply Nat.leb_le; lia).
      replace (S m <=? k)%nat with true by (symmetry; apply Nat.leb_le; lia).
      replace (n - k <=? S m)%nat with false by (symmetry; apply Nat.leb_gt; lia).
      replace (n - S m + k - n)%nat with (k - S m)%nat by lia.
      rewrite Hs. ring.
    + replace (S m <=? k)%nat with false by (symmetry; apply Nat.leb_gt; lia).
      replace (n - k <=? n - S m)%nat with false by (symmetry; apply Nat.leb_gt; lia).
      destruct (le_lt_dec (n - k) (S m)) as [Hwrap | Hmid].
      * pose proof (Hsym (S m + k - n)%nat ltac:(lia)) as Hs.
        replace (2 * k - (S m + k - n))%nat with (k + (n - S m))%nat in Hs by lia.
        replace (n - S m <=? k)%nat with true by (symmetry; apply Nat.leb_le; lia).
        replace (n - k <=? S m)%nat with true by (symmetry; apply Nat.leb_le; lia).
        rewrite Hs. ring.
      * replace (n - S m <=? k)%nat with false by (symmetry; apply Nat.leb_gt; lia).
        replace (n - k <=? S m)%nat with false by (symmetry; apply Nat.leb_gt; lia).
        ring.
Qed.

(** The matrix of a table stencil is symmetric for an even gradient and
    antisymmetric for an odd one: [A[j, i] = (-1)^grad * A[i, j]]. *)
Theorem stencil_matrix_transpose
    (grad order : Z) (stencil : vector) (n : nat) (A : spmatrix) (i j : nat) :
  gradient_stencil grad order = OK stencil ->
  sparse_circulant stencil n = OK A ->
  (i < n)%nat -> (j < n)%nat ->
  entry A j i = (if Z.even grad then 1 else - (1)) * entry A i j.
Proof.
  intros Hst HA Hi Hj.
  destruct (gradient_stencil_mirror _ _ _ Hst) as [k [Hlen Hsym]].
  destruct (sparse_circulant_inv stencil n k A Hlen ltac:(lia) HA) as [Hk ->].
  rewrite !entry_tabulate by assumption.
  rewrite <- (periodic_coeff_mirror stencil n k _ _ Hlen Hk Hsym
                (cyc_lt n (Z.of_nat j - Z.of_nat i) ltac:(lia))).
  f_equal. apply cyc_congr. rewrite cyc_of_nat by lia.
  rewrite <- (Z.sub_0_l (_ mod _)), Zminus_mod_idemp_r. f_equal. lia.
Qed.

Lemma stencil_matrix_transpose_witness :
  entry example_D 3 2 = (if Z.even 1 then 1 else - (1)) * entry example_D 2 3.
Proof.
  apply (stencil_matrix_transpose 1 2 [frac (-1) 2; 0; frac 1 2] 8);
    [ reflexivity | vm_compute; reflexivity | lia | lia ].
Defined.

(** A matrix assembled from a stencil that sums to zero annihilates the
    constant vectors. *)
Theorem sparse_circulant_constants
    (stencil : vector) (n k : nat) (A : spmatrix) (c : Qc) :
  length stencil = (2 * k + 1)%nat ->
  vsum stencil = 0 ->
  (0 < n)%nat ->
  sparse_circulant stencil n = OK A ->
  dot A (repeat c n) = OK (repeat 0 n).
Proof.
  intros Hlen Hsum Hn HA.
  destruct (sparse_circulant_inv stencil n k A Hlen Hn HA) as [Hk ->].
  rewrite dot_tabulate by apply repeat_length. f_equal.
  apply map_seq_zero. intros i Hi.
  rewrite (periodic_dot_entry n (periodic_coeff stencil n) _ i Hi).
  transitivity (c * bigsum n (periodic_coeff stencil n)).
  - unfold bigsum. rewrite <- vsum_map_scale. apply vsum_map_ext. intros m _.
    rewrite nth_repeat_lt by (apply cyc_lt; lia). ring.
  - rewrite (periodic_coeff_sum stencil n k), Hsum by assumption. ring.
Qed.

Lemma sparse_circulant_constants_witness :
  dot example_D (repeat (frac 3 7) 8) = OK (repeat 0 8).
Proof.
  apply (sparse_circulant_constants [frac (-1) 2; 0; frac 1 2] 8 1);
    [ reflexivity | qc_compute | lia | vm_compute; reflexivity ].
Defined.

(** ** The matrices of the notebook in periodic form *)

Lemma advection_matrix_inv (nx : nat) (D : spmatrix) :
  advection_matrix nx = OK D ->
  (3 <= nx)%nat /\
  D = periodic_matrix nx (periodic_coeff [frac (-1) 2; 0; frac 1 2] nx).
Proof.
  intros H. destruct (le_lt_dec nx 2) as [Hle | Hlt].
  - exfalso. revert H. unfold advection_matrix, stencil_matrix.
    change (gradient_stencil 1 2) with (OK [frac (-1) 2; 0; frac 1 2]).
    unfold bind.
    rewrite (sparse_circulant_overlap _ nx 1) by (reflexivity || lia).
    discriminate.
  - rewrite advection_matrix_periodic in H by lia. apply OK_inj in H.
    split; [ lia | now symmetry ].
Qed.

Lemma diffusion_matrix_inv (nx : nat) (L : spmatrix) :
  diffusion_matrix nx = OK L ->
  (3 <= nx)%nat /\
  L = periodic_matrix nx (periodic_coeff [1; frac (-2) 1; 1] nx).
Proof.
  intros H. destruct (le_lt_dec nx 2) as [Hle | Hlt].
  - exfalso. revert H. unfold diffusion_matrix, stencil_matrix.
    change (gradient_stencil 2 2) with (OK [1; frac (-2) 1; 1]).
    unfold bind.
    rewrite (sparse_circulant_overlap _ nx 1) by (reflexivity || lia).
    discriminate.
  - rewrite diffusion_matrix_periodic in H by lia. apply OK_inj in H.
    split; [ lia | now symmetry ].
Qed.

Lemma delta_cyc (n i j : nat) :
  (i < n)%nat -> (j < n)%nat ->
  (if (i =? j)%nat then 1 else 0) = delta_coeff (cyc n (Z.of_nat j - Z.of_nat i)).
Proof.
  intros Hi Hj. unfold delta_coeff.
  destruct (Nat.eqb_spec i j) as [-> | Hne].
  - rewrite Z.sub_diag. unfold cyc. now rewrite Z.mod_0_l by lia.
  - destruct (Nat.eqb_spec (cyc n (Z.of_nat j - Z.of_nat i)) 0) as [Hz | _];
      [ | reflexivity ].
    apply cyc_diff_zero in Hz; [ contradiction | assumption | assumption ].
Qed.

Lemma implicit_system_dt
    (M K : spmatrix) (theta dt : Qc) (w w' : nat) (sys : ImplicitSystem) :
  implicit_system M K theta dt w = OK (sys, w') -> dt <> 0.
Proof.
  intros H Hz. revert H.
  unfold implicit_system, pbind, lift, explicit_matrix, sdiv.
  destruct (Qc_eq_dec dt 0); [ discriminate | contradiction ].
Qed.

(** What a successful run of the cells up to the implicit system leaves:
    at least three mesh points, non-zero [dx] and [dt], and the periodic
    matrices [A0] and [A1] with the factor of [A1]. *)
Lemma notebook_system_inv
    (nx : nat) (u nu dx dt theta : Qc) (w w' : nat) (sys : ImplicitSystem) :
  notebook_system nx u nu dx dt theta w = OK (sys, w') ->
  (3 <= nx)%nat /\ dx <> 0 /\ dt <> 0 /\ w' = S w /\
  exists F : factor,
    splu (periodic_matrix nx (A1_coeff nx u nu dx dt theta)) = OK F /\
    sys = mk_system (periodic_matrix nx (A0_coeff nx u nu dx dt theta))
                    (periodic_matrix nx (A1_coeff nx u nu dx dt theta))
                    (lu_solve F).
Proof.
  unfold notebook_system. unfold pbind at 1 2 3 4. unfold lift.
  destruct (mass_matrix nx) as [ M | ] eqn:EM; [ | discriminate ].
  destruct (advection_matrix nx) as [ D | ] eqn:ED; [ | discriminate ].
  destruct (diffusion_matrix nx) as [ L | ] eqn:EL; [ | discriminate ].
  destruct (spatial_terms u nu dx D L) as [ K | ] eqn:EK; [ | discriminate ].
  intros H.
  destruct (advection_matrix_inv nx D ED) as [Hnx ->].
  destruct (diffusion_matrix_inv nx L EL) as [_ ->].
  rewrite mass_matrix_entries in EM by lia. apply OK_inj in EM. subst M.
  assert (Hdx : dx <> 0).
  { intros Hz. revert EK. unfold spatial_terms, pydiv.
    destruct (Qc_eq_dec dx 0); [ discriminate | contradiction ]. }
  unfold periodic_matrix in EK. apply spatial_terms_periodic in EK.
  pose proof (implicit_system_dt _ _ _ _ _ _ _ H) as Hdt.
  assert (HKs : shape K = (nx, nx)) by (now subst K).
  destruct (implicit_system_inv nx
              (tabulate nx nx (fun i j => if (i =? j)%nat then 1 else 0))
              K theta dt w w' sys eq_refl HKs H) as [F [HF [Hsys Hw]]].
  split; [ exact Hnx | ]. split; [ exact Hdx | ]. split; [ exact Hdt | ].
  split; [ exact Hw | ].
  assert (HA1 : tabulate nx nx
                  (fun i j =>
                     1 / dt * entry (tabulate nx nx
                                       (fun i j => if (i =? j)%nat then 1 else 0)) i j
                     + theta * entry K i j)
                = periodic_matrix nx (A1_coeff nx u nu dx dt theta)).
  { apply tabulate_ext. intros i j Hi Hj. subst K.
    rewrite !entry_tabulate by assumption.
    rewrite (delta_cyc nx i j Hi Hj). reflexivity. }
  assert (HA0 : tabulate nx nx
                  (fun i j =>
                     - (1 / dt) * entry (tabulate nx nx
                                       (fun i j => if (i =? j)%nat then 1 else 0)) i j
                     + (1 - theta) * entry K i j)
                = periodic_matrix nx (A0_coeff nx u nu dx dt theta)).
  { apply tabulate_ext. intros i j Hi Hj. subst K.
    rewrite !entry_tabulate by assumption.
    rewrite (delta_cyc nx i j Hi Hj). reflexivity. }
  rewrite HA1 in HF, Hsys. rewrite HA0 in Hsys.
  exists F. now split.
Qed.

Lemma cyc_add_cyc (n i : nat) (z : Z) :
  (0 < n)%nat ->
  cyc n (Z.of_nat i + Z.of_nat (cyc n z)) = cyc n (Z.of_nat i + z).
Proof.
  intros Hn. apply cyc_congr. rewrite cyc_of_nat by exact Hn.
  apply Zplus_mod_idemp_r.
Qed.

Lemma bigsum_3 (f : nat -> Qc) : bigsum 3 f = f 0%nat + f 1%nat + f 2%nat.
Proof.
  unfold bigsum. simpl. ring.
Qed.

(** The product with the periodic matrix of a three-point stencil. *)
Lemma periodic_three_point (a b c : Qc) (n : nat) (q : vector) (i : nat) :
  (3 <= n)%nat -> (i < n)%nat ->
  bigsum n (fun j => periodic_coeff [a; b; c] n (cyc n (Z.of_nat j - Z.of_nat i))
                     * nth j q 0)
  = a * prev n q i + b * nth i q 0 + c * next n q i.
Proof.
  intros Hn Hi.
  rewrite (periodic_dot_entry n (periodic_coeff [a; b; c] n) q i Hi).
  rewrite (periodic_coeff_weighted [a; b; c] n 1
             (fun m => nth (cyc n (Z.of_nat i + Z.of_nat m)) q 0))
    by (reflexivity || lia).
  change (2 * 1 + 1)%nat with 3%nat. rewrite bigsum_3. unfold prev, next.
  rewrite !cyc_add_cyc by lia.
  replace (Z.of_nat i + (Z.of_nat 0 - Z.of_nat 1))%Z with (Z.of_nat i - 1)%Z by lia.
  replace (Z.of_nat i + (Z.of_nat 1 - Z.of_nat 1))%Z with (Z.of_nat i) by lia.
  replace (Z.of_nat i + (Z.of_nat 2 - Z.of_nat 1))%Z with (Z.of_nat i + 1)%Z by lia.
  rewrite (cyc_id n i Hi). simpl nth. ring.
Qed.

(** What [K] does at a mesh point: the centred differences of the
    notebook's text, [u (q[i+1] - q[i-1]) / (2 dx)
    - nu (q[i+1] - 2 q[i] + q[i-1]) / dx^2] with periodic neighbours. *)
Theorem spatial_terms_central_differences
    (nx : nat) (u nu dx : Qc) (D L K : spmatrix) (q : vector) (i : nat) :
  advection_matrix nx = OK D ->
  diffusion_matrix nx = OK L ->
  spatial_terms u nu dx D L = OK K ->
  length q = nx ->
  (i < nx)%nat ->
  exists y : vector,
    dot K q = OK y /\
    nth i y 0
    = u / dx * ((next nx q i - prev nx q i) / frac 2 1)
      - nu / (dx * dx) * (next nx q i - frac 2 1 * nth i q 0 + prev nx q i).
Proof.
  intros HD HL HK Hq Hi.
  destruct (advection_matrix_inv nx D HD) as [Hnx ->].
  destruct (diffusion_matrix_inv nx L HL) as [_ ->].
  assert (Hdx : dx <> 0).
  { intros Hz. revert HK. unfold spatial_terms, pydiv.
    destruct (Qc_eq_dec dx 0); [ discriminate | contradiction ]. }
  unfold periodic_matrix in HK. apply spatial_terms_periodic in HK. subst K.
  eexists. split; [ now apply dot_tabulate | ].
  rewrite nth_map_seq by exact Hi.
  transitivity
    (u / dx * bigsum nx (fun j =>
        periodic_coeff [frac (-1) 2; 0; frac 1 2] nx
          (cyc nx (Z.of_nat j - Z.of_nat i)) * nth j q 0)
     + - (nu / (dx * dx)) * bigsum nx (fun j =>
        periodic_coeff [1; frac (-2) 1; 1] nx
          (cyc nx (Z.of_nat j - Z.of_nat i)) * nth j q 0)).
  { unfold bigsum. rewrite <- !vsum_map_scale, <- vsum_map_plus.
    apply vsum_map_ext. intros j _. ring. }
  rewrite !periodic_three_point by assumption.
  replace (frac (-1) 2) with (- (1 / frac 2 1)) by qc_compute.
  replace (frac 1 2) with (1 / frac 2 1) by qc_compute.
  replace (frac (-2) 1) with (- frac 2 1) by qc_compute.
  field. repeat split; (exact Hdx || discriminate).
Qed.

Lemma spatial_terms_central_differences_witness :
  exists y : vector,
    dot example_K example_q = OK y /\
    nth 0 y 0
    = 1 / frac 1 4 * ((next 8 example_q 0 - prev 8 example_q 0) / frac 2 1)
      - frac 1 2 / (frac 1 4 * frac 1 4)
        * (next 8 example_q 0 - frac 2 1 * nth 0 example_q 0 + prev 8 example_q 0).
Proof.
  apply (spatial_terms_central_differences 8 1 (frac 1 2) (frac 1 4)
           example_D example_L example_K example_q 0);
    try (vm_compute; reflexivity); lia.
Defined.

(** ** The solve as the inverse of [A1] *)






Lemma returned_eq (r : result spmatrix) :
  match r with OK _ => True | Raise _ => False end -> r = OK (returned r).
Proof.
  destruct r; [ reflexivity | contradiction ].
Qed.



(** ** The implicit system, once built *)





(** ** Round trips and steady states *)






(** ** The steady case of the time loop *)





(** ** The update of the notebook's system *)


Lemma bigsum_plus (n : nat) (f g : nat -> Qc) :
  bigsum n (fun i => f i + g i) = bigsum n f + bigsum n g.
Proof.
  apply vsum_map_plus.
Qed.

Lemma bigsum_scale (n : nat) (c : Qc) (f : nat -> Qc) :
  bigsum n (fun i => c * f i) = c * bigsum n f.
Proof.
  apply vsum_map_scale.
Qed.














(** ** The energy of the implicit matrix *)

Lemma Qc_mult_nonneg (a b : Qc) : 0 <= a -> 0 <= b -> 0 <= a * b.
Proof.
  intros Ha Hb. pose proof (Qcmult_le_compat_r 0 a b Ha Hb) as H.
  now replace (0 * b) with 0 in H by ring.
Qed.

Lemma Qc_inv_pos (dt : Qc) : 0 < dt -> 0 < 1 / dt.
Proof.
  intros Hdt. apply Qcnot_le_lt. intros Hle.
  pose proof (Qcmult_le_compat_r (1 / dt) 0 dt Hle (Qclt_le_weak _ _ Hdt)) as H.
  replace (1 / dt * dt) with 1 in H
    by (field; now apply Qclt_not_zero).
  replace (0 * dt) with 0 in H by ring.
  now apply (Qcle_not_lt 1 0 H).
Qed.

Lemma cyc_succ_inj (n i j : nat) :
  (i < n)%nat -> (j < n)%nat ->
  cyc n (Z.of_nat i + 1) = cyc n (Z.of_nat j + 1) -> i = j.
Proof.
  intros Hi Hj H. apply (cyc_shift_inj n (- 1)); assumption.
Qed.

Lemma prev_next (n : nat) (x : vector) (i : nat) :
  (i < n)%nat -> prev n x (cyc n (Z.of_nat i + 1)) = nth i x 0.
Proof.
  intros Hi. unfold prev. f_equal.
  rewrite <- (cyc_id n i Hi) at 2. apply cyc_congr.
  rewrite cyc_of_nat by lia. rewrite Zminus_mod_idemp_l. f_equal. lia.
Qed.

(** Summation by parts on the periodic mesh. *)
Lemma sum_x_prev (n : nat) (x : vector) :
  (0 < n)%nat ->
  bigsum n (fun i => nth i x 0 * prev n x i)
  = bigsum n (fun i => nth i x 0 * next n x i).
Proof.
  intros Hn.
  rewrite <- (bigsum_reindex n (fun i => cyc n (Z.of_nat i + 1))
                (fun j => nth j x 0 * prev n x j)).
  - apply bigsum_ext. intros i Hi. rewrite prev_next by exact Hi.
    unfold next. ring.
  - intros i _. now apply cyc_lt.
  - intros i j Hi Hj. now apply cyc_succ_inj.
Qed.

Lemma sum_next_next (n : nat) (x : vector) :
  (0 < n)%nat ->
  bigsum n (fun i => next n x i * next n x i)
  = bigsum n (fun i => nth i x 0 * nth i x 0).
Proof.
  intros Hn.
  apply (bigsum_reindex n (fun i => cyc n (Z.of_nat i + 1))
           (fun j => nth j x 0 * nth j x 0)).
  - intros i _. now apply cyc_lt.
  - intros i j Hi Hj. now apply cyc_succ_inj.
Qed.

Lemma delta_dot (n : nat) (x : vector) (i : nat) :
  (i < n)%nat ->
  bigsum n (fun j => delta_coeff (cyc n (Z.of_nat j - Z.of_nat i)) * nth j x 0)
  = nth i x 0.
Proof.
  intros Hi. rewrite (bigsum_single n i); [ | exact Hi | ].
  - rewrite <- (delta_cyc n i i Hi Hi), Nat.eqb_refl. ring.
  - intros j Hj Hne. rewrite <- (delta_cyc n i j Hi Hj).
    destruct (Nat.eqb_spec i j); [ congruence | ring ].
Qed.

(** [A1 x] at a mesh point. *)
Lemma A1_pointwise (nx : nat) (u nu dx dt theta : Qc) (x : vector) (i : nat) :
  (3 <= nx)%nat -> (i < nx)%nat ->
  bigsum nx (fun j => A1_coeff nx u nu dx dt theta (cyc nx (Z.of_nat j - Z.of_nat i))
                      * nth j x 0)
  = 1 / dt * nth i x 0
    + theta * (u / dx) * (frac (-1) 2 * prev nx x i + 0 * nth i x 0
                          + frac 1 2 * next nx x i)
    + - (theta * (nu / (dx * dx)))
      * (1 * prev nx x i + frac (-2) 1 * nth i x 0 + 1 * next nx x i).
Proof.
  intros Hnx Hi.
  rewrite <- (periodic_three_point (frac (-1) 2) 0 (frac 1 2) nx x i Hnx Hi).
  rewrite <- (periodic_three_point 1 (frac (-2) 1) 1 nx x i Hnx Hi).
  rewrite <- (delta_dot nx x i Hi) at 1.
  rewrite <- !bigsum_scale, <- !bigsum_plus.
  apply bigsum_ext. intros j _. unfold A1_coeff, K_coeff. ring.
Qed.

(** The energy of [A1]: [x . A1 x = |x|^2/dt + theta nu/dx^2 |x[i+1] - x[i]|^2];
    the advection term does not contribute. *)
Lemma A1_energy (nx : nat) (u nu dx dt theta : Qc) (x : vector) :
  (3 <= nx)%nat ->
  bigsum nx (fun i =>
    nth i x 0
    * bigsum nx (fun j =>
        A1_coeff nx u nu dx dt theta (cyc nx (Z.of_nat j - Z.of_nat i)) * nth j x 0))
  = 1 / dt * bigsum nx (fun i => nth i x 0 * nth i x 0)
    + theta * (nu / (dx * dx))
      * bigsum nx (fun i => (next nx x i - nth i x 0) * (next nx x i - nth i x 0)).
Proof.
  intros Hnx.
  set (Sxx := bigsum nx (fun i => nth i x 0 * nth i x 0)).
  set (Sxn := bigsum nx (fun i => nth i x 0 * next nx x i)).
  transitivity
    ((1 / dt + (1 + 1) * (theta * (nu / (dx * dx)))) * Sxx
     + (theta * (u / dx) * frac (-1) 2 - theta * (nu / (dx * dx)))
       * bigsum nx (fun i => nth i x 0 * prev nx x i)
     + (theta * (u / dx) * frac 1 2 - theta * (nu / (dx * dx))) * Sxn).
  - unfold Sxx, Sxn. rewrite <- !bigsum_scale, <- !bigsum_plus.
    apply bigsum_ext. intros i Hi. rewrite A1_pointwise by assumption.
    replace (frac (-2) 1) with (- (1 + 1)) by qc_compute. ring.
  - rewrite sum_x_prev by lia. fold Sxn.
    transitivity
      (1 / dt * Sxx
       + theta * (nu / (dx * dx))
         * (bigsum nx (fun i => next nx x i * next nx x i)
            + - (1 + 1) * Sxn + Sxx)).
    + rewrite sum_next_next by lia. fold Sxx.
      replace (frac (-1) 2) with (- frac 1 2) by qc_compute. ring.
    + f_equal. f_equal. unfold Sxn, Sxx.
      rewrite <- !bigsum_scale, <- !bigsum_plus.
      apply bigsum_ext. intros i _. ring.
Qed.

(** The matrix [A1] the cells assemble, in periodic form. *)
Lemma implicit_matrix_periodic
    (nx : nat) (u nu dx dt theta : Qc) (M D L K A : spmatrix) :
  mass_matrix nx = OK M ->
  advection_matrix nx = OK D ->
  diffusion_matrix nx = OK L ->
  spatial_terms u nu dx D L = OK K ->
  implicit_matrix M K theta dt = OK A ->
  (3 <= nx)%nat /\ A = periodic_matrix nx (A1_coeff nx u nu dx dt theta).
Proof.
  intros EM ED EL EK EA.
  destruct (advection_matrix_inv nx D ED) as [Hnx ->].
  destruct (diffusion_matrix_inv nx L EL) as [_ ->].
  rewrite mass_matrix_entries in EM by lia. apply OK_inj in EM. subst M.
  unfold periodic_matrix in EK. apply spatial_terms_periodic in EK.
  assert (Hdt : dt <> 0).
  { intros Hz. revert EA. unfold implicit_matrix, sdiv.
    destruct (Qc_eq_dec dt 0); [ discriminate | contradiction ]. }
  assert (HKs : shape K = (nx, nx)) by (now subst K).
  rewrite (implicit_matrix_entries nx) in EA by (reflexivity || assumption).
  apply OK_inj in EA. subst A. split; [ exact Hnx | ].
  apply tabulate_ext. intros i j Hi Hj. subst K.
  rewrite !entry_tabulate by assumption.
  rewrite (delta_cyc nx i j Hi Hj). reflexivity.
Qed.

(** The energy of the assembled [A1]: for every state [x],
    [x . A1 x = |x|^2/dt + theta*nu/dx^2 * sum_i (x[i+1] - x[i])^2] with
    periodic neighbours; the advection term contributes nothing. *)
Theorem implicit_matrix_energy
    (nx : nat) (u nu dx dt theta : Qc) (M D L K A : spmatrix) (x y : vector) :
  mass_matrix nx = OK M ->
  advection_matrix nx = OK D ->
  diffusion_matrix nx = OK L ->
  spatial_terms u nu dx D L = OK K ->
  implicit_matrix M K theta dt = OK A ->
  length x = nx ->
  dot A x = OK y ->
  bigsum nx (fun i => nth i x 0 * nth i y 0)
  = 1 / dt * bigsum nx (fun i => nth i x 0 * nth i x 0)
    + theta * (nu / (dx * dx))
      * bigsum nx (fun i => (next nx x i - nth i x 0) * (next nx x i - nth i x 0)).
Proof.
  intros EM ED EL EK EA Hx Hy.
  destruct (implicit_matrix_periodic nx u nu dx dt theta M D L K A EM ED EL EK EA)
    as [Hnx ->].
  unfold periodic_matrix in Hy. rewrite dot_tabulate in Hy by exact Hx.
  apply OK_inj in Hy. subst y.
  rewrite <- (A1_energy nx u nu dx dt theta x Hnx).
  apply bigsum_ext. intros i Hi. now rewrite nth_map_seq by exact Hi.
Qed.

Lemma implicit_matrix_energy_witness :
  bigsum 4 (fun i => nth i [1; 0; 0; 0] 0 * nth i [frac 3 2; frac (-1) 2; 0; 0] 0)
  = 1 / 1 * bigsum 4 (fun i => nth i [1; 0; 0; 0] 0 * nth i [1; 0; 0; 0] 0)
    + frac 1 2 * (frac 1 2 / (1 * 1))
      * bigsum 4 (fun i => (next 4 [1; 0; 0; 0] i - nth i [1; 0; 0; 0] 0)
                           * (next 4 [1; 0; 0; 0] i - nth i [1; 0; 0; 0] 0)).
Proof.
  apply (implicit_matrix_energy 4 1 (frac 1 2) 1 1 (frac 1 2)
           example_mass
           (returned (advection_matrix 4)) (returned (diffusion_matrix 4))
           example_spatial
           (returned (implicit_matrix example_mass example_spatial (frac 1 2) 1))).
  - reflexivity.
  - apply returned_eq. vm_compute. exact I.
  - apply returned_eq. vm_compute. exact I.
  - apply returned_eq. vm_compute. exact I.
  - apply returned_eq. vm_compute. exact I.
  - reflexivity.
  - apply result_vector_eq. vm_compute. reflexivity.
Defined.

(** ** Stencils on a mesh *)

Lemma gradient_stencil_size (grad order : Z) (stencil : vector) :
  gradient_stencil grad order = OK stencil ->
  exists k : nat,
    length stencil = (2 * k + 1)%nat /\ (1 <= k)%nat /\
    (Z.of_nat (2 * k + 1) = order + 2 * ((grad + 1) / 2) - 1)%Z.
Proof.
  intros H. stencil_cases H;
    first [ exists 1%nat; repeat split; (reflexivity || lia)
          | exists 2%nat; repeat split; (reflexivity || lia)
          | exists 3%nat; repeat split; (reflexivity || lia)
          | exists 4%nat; repeat split; (reflexivity || lia) ].
Qed.

(** Which meshes a table stencil fits: the assembly of the stencil for
    [(grad, order)] succeeds exactly when the pair is in the table and the
    mesh has at least as many points as the stencil,
    [order + 2*((grad+1)/2) - 1]. *)
Theorem stencil_matrix_domain (grad order : Z) (nx : nat) :
  (exists A : spmatrix, stencil_matrix grad order nx = OK A) <->
  supported grad order /\ (order + 2 * ((grad + 1) / 2) - 1 <= Z.of_nat nx)%Z.
Proof.
  unfold stencil_matrix. split.
  - intros [A HA].
    destruct (gradient_stencil grad order) as [ stencil | e ] eqn:Est;
      [ | discriminate HA ].
    simpl bind in HA.
    destruct (gradient_stencil_size _ _ _ Est) as [k [Hlen [Hk Hsize]]].
    split.
    + destruct (supported_dec grad order) as [Hs | Hns]; [ exact Hs | ].
      apply gradient_stencil_missing in Hns. destruct Hns as [key Hkey]. congruence.
    + destruct (le_lt_dec nx (2 * k)) as [Hle | Hlt]; [ | lia ].
      rewrite (sparse_circulant_overlap stencil nx k) in HA by assumption.
      discriminate HA.
  - intros [Hs Hnx].
    assert (Hst : exists stencil, gradient_stencil grad order = OK stencil).
    { apply supported_cases in Hs. simpl in Hs.
      repeat (destruct Hs as [Hs | Hs];
              [ injection Hs as <- <-; eexists; reflexivity | ]).
      contradiction. }
    destruct Hst as [stencil Est]. rewrite Est. simpl bind.
    destruct (gradient_stencil_size _ _ _ Est) as [k [Hlen [Hk Hsize]]].
    rewrite (sparse_circulant_periodic stencil nx k) by (assumption || lia).
    now eexists.
Qed.

(** ** The time loop on the notebook's system *)

Lemma notebook_step_total
    (nx : nat) (u nu dx dt theta : Qc) (w w' : nat) (sys : ImplicitSystem)
    (v : vector) :
  notebook_system nx u nu dx dt theta w = OK (sys, w') ->
  length v = nx ->
  exists x : vector, step sys v = OK x /\ length x = nx.
Proof.
  intros H Hv.
  destruct (notebook_system_inv _ _ _ _ _ _ _ _ _ H)
    as [Hnx [Hdx [Hdt [_ [F [HF ->]]]]]].
  unfold step. simpl A0. simpl solve. unfold periodic_matrix in *.
  rewrite dot_tabulate by exact Hv. simpl bind.
  match goal with
  | |- context [lu_solve F ?b] =>
      destruct (lu_solve_correct nx _ F b HF) as [x [Hx [Hxl _]]]
  end.
  { unfold vneg. now rewrite !length_map, length_seq. }
  now exists x.
Qed.


(** The time loop on the notebook's system never fails on a state of the
    mesh size: it returns [nt + 1] rows, the first is [qinit], each row
    [i + 1] below [nt] is the update of row [i], and for [nt >= 1] the last
    row is the zero row the array was created with. *)
Theorem timeseries_recurrence
    (nx : nat) (u nu dx dt theta : Qc) (w w' : nat) (sys : ImplicitSystem)
    (qinit : vector) (nt : nat) :
  notebook_system nx u nu dx dt theta w = OK (sys, w') ->
  length qinit = nx ->
  exists q : list vector,
    timeseries sys qinit nt = OK q /\
    length q = (nt + 1)%nat /\
    nth 0 q [] = qinit /\
    (forall i, (i + 1 < nt)%nat -> step sys (nth i q []) = OK (nth (i + 1) q [])) /\
    ((1 <= nt)%nat -> nth nt q [] = repeat 0 nx).
Proof.
  intros H Hq. apply timeseries_marched; [ | exact Hq ].
  intros v Hv. exact (notebook_step_total _ _ _ _ _ _ _ _ _ v H Hv).
Qed.

Lemma timeseries_recurrence_witness :
  exists q : list vector,
    timeseries example_system [1; 0; 0; 0] 3 = OK q /\
    length q = (3 + 1)%nat /\
    nth 0 q [] = [1; 0; 0; 0] /\
    (forall i, (i + 1 < 3)%nat ->
       step example_system (nth i q []) = OK (nth (i + 1) q [])) /\
    ((1 <= 3)%nat -> nth 3 q [] = repeat 0 4).
Proof.
  apply (timeseries_recurrence 4 1 (frac 1 2) 1 1 (frac 1 2) 0%nat 1%nat example_system).
  - unfold example_system. apply built_eq. vm_compute. reflexivity.
  - reflexivity.
Defined.



(** A state of the wrong size: as soon as the loop runs at all
    ([nt >= 2]), the first product [A0.dot(q[0])] raises [ValueError]. *)
Theorem timeseries_size_mismatch (sys : ImplicitSystem) (qinit : vector) (nt : nat) :
  length qinit <> ncols (A0 sys) ->
  (2 <= nt)%nat ->
  timeseries sys qinit nt = Raise ValueError.
Proof.
  intros Hne Hnt. unfold timeseries, zeros2.
  rewrite setitem_row.
  2: { rewrite repeat_length. lia. }
  2: { rewrite Nat.add_1_r. simpl. now rewrite repeat_length. }
  simpl bind.
  destruct nt as [ | [ | nt ] ]; [ lia | lia | ].
  replace (S (S nt) - 1)%nat with (S nt) by lia.
  simpl for_range.
  unfold dot.
  destruct (length qinit =? ncols (A0 sys))%nat eqn:E;
    [ apply Nat.eqb_eq in E; contradiction | reflexivity ].
Qed.

Lemma timeseries_size_mismatch_witness :
  timeseries example_system [1; 0; 0] 2 = Raise ValueError.
Proof.
  apply (timeseries_size_mismatch example_system [1; 0; 0] 2).
  - vm_compute. discriminate.
  - lia.
Defined.

(** ** The configuration cell and the mesh *)

Lemma of_Z_add (a b : Z) : of_Z (a + b) = of_Z a + of_Z b.
Proof.
  unfold of_Z, Qcplus. apply Q2Qc_eq_iff. unfold Q2Qc, this.
  rewrite !Qred_correct. rewrite inject_Z_plus. reflexivity.
Qed.

Lemma of_Z_lt (a b : Z) : (a < b)%Z -> of_Z a < of_Z b.
Proof.
  intros H. unfold Qclt, of_Z, Q2Qc, this. rewrite !Qred_correct.
  rewrite <- Zlt_Qlt. exact H.
Qed.

Lemma of_Z_le (a b : Z) : (a <= b)%Z -> of_Z a <= of_Z b.
Proof.
  intros H. unfold Qcle, of_Z, Q2Qc, this. rewrite !Qred_correct.
  rewrite <- Zle_Qle. exact H.
Qed.

Lemma of_nat_succ (n : nat) : of_nat (n + 1) = of_nat n + 1.
Proof.
  unfold of_nat. rewrite Nat2Z.inj_add, of_Z_add. reflexivity.
Qed.

Lemma of_nat_pos (n : nat) : (0 < n)%nat -> 0 < of_nat n.
Proof.
  intros H. apply (of_Z_lt 0). lia.
Qed.

Lemma of_nat_not_zero (n : nat) : n <> 0%nat -> of_nat n <> 0.
Proof.
  intros H. apply Qclt_not_zero, of_nat_pos. lia.
Qed.

Lemma Qcdiv_pos (a b : Qc) : 0 < a -> 0 < b -> 0 < a / b.
Proof.
  intros Ha Hb. unfold Qcdiv.
  pose proof (Qcmult_lt_compat_r 0 a (/ b)) as H.
  replace (0 * / b) with 0 in H by ring. apply H; [ | exact Ha ].
  pose proof (Qc_inv_pos b Hb) as Hi. unfold Qcdiv in Hi.
  now replace (1 * / b) with (/ b) in Hi by ring.
Qed.

Lemma Qcmult_pos (a b : Qc) : 0 < a -> 0 < b -> 0 < a * b.
Proof.
  intros Ha Hb. pose proof (Qcmult_lt_compat_r 0 a b Hb Ha) as H.
  now replace (0 * b) with 0 in H by ring.
Qed.

(** The values the configuration cell computes, and what it needs. *)
Lemma first_cell_inv (nx : nat) (lx u re cfl : Qc) (d : Derived) :
  first_cell nx lx u re cfl = OK d ->
  nx <> 0%nat /\ lx <> 0 /\ u <> 0 /\ re <> 0 /\
  dx d = lx / of_nat nx /\
  nu d = lx * u / re /\
  dt d = cfl * (lx / of_nat nx) / u /\
  cfl_u d = cfl /\
  cfl_v d = lx * u / re * (cfl * (lx / of_nat nx) / u)
            / (lx / of_nat nx * (lx / of_nat nx)).
Proof.
  unfold first_cell, pydiv.
  destruct (Qc_eq_dec (of_nat nx) 0) as [ | Hnx ]; [ discriminate | ].
  simpl bind.
  destruct (Qc_eq_dec re 0) as [ | Hre ]; [ discriminate | ].
  simpl bind.
  destruct (Qc_eq_dec u 0) as [ | Hu ]; [ discriminate | ].
  simpl bind.
  destruct (Qc_eq_dec (lx / of_nat nx * (lx / of_nat nx)) 0) as [ | Hdx ];
    [ discriminate | ].
  simpl bind. intros [= <-]. simpl.
  repeat split; try assumption.
  - intros ->. now apply Hnx.
  - intros ->. apply Hdx. field. exact Hnx.
Qed.

(** What the configuration cell needs: it can return only when the number
    of points, the domain length, the velocity and the Reynolds number are
    all non-zero; a zero velocity or an empty domain stops the notebook in
    its first cell. *)
Theorem first_cell_requires (nx : nat) (lx u re cfl : Qc) (d : Derived) :
  first_cell nx lx u re cfl = OK d ->
  nx <> 0%nat /\ lx <> 0 /\ u <> 0 /\ re <> 0.
Proof.
  intros H. apply first_cell_inv in H. tauto.
Qed.

Lemma first_cell_requires_witness :
  8%nat <> 0%nat /\ frac 4 1 <> 0 /\ frac 2 1 <> 0 /\ frac 20 1 <> 0.
Proof.
  apply (first_cell_requires 8 (frac 4 1) (frac 2 1) (frac 20 1) (frac 4 5)
           (mk_derived (frac 1 2) (frac 2 5) (frac 1 5) (frac 4 5) (frac 8 25))).
  unfold first_cell, pydiv. simpl. f_equal. f_equal; qc_compute.
Defined.

(** What the derived values mean: [nx] cells of width [dx] fill the
    domain, the advective CFL number [u*dt/dx] is the prescribed [cfl],
    the viscosity gives the prescribed Reynolds number, and the diffusive
    CFL number is [cfl*nx/re], whatever the domain length and the
    velocity. *)
Theorem first_cell_relations (nx : nat) (lx u re cfl : Qc) (d : Derived) :
  first_cell nx lx u re cfl = OK d ->
  dx d * of_nat nx = lx /\
  u * dt d = cfl * dx d /\
  nu d * re = lx * u /\
  cfl_u d = cfl /\
  cfl_v d * re = cfl * of_nat nx.
Proof.
  intros H. apply first_cell_inv in H.
  destruct H as [Hnx [Hlx [Hu [Hre [-> [-> [-> [-> ->]]]]]]]].
  apply of_nat_not_zero in Hnx.
  repeat split; try reflexivity; field; repeat split; assumption.
Qed.

Lemma first_cell_relations_witness :
  let d := mk_derived (frac 1 2) (frac 2 5) (frac 1 5) (frac 4 5) (frac 8 25) in
  dx d * of_nat 8 = frac 4 1 /\
  frac 2 1 * dt d = frac 4 5 * dx d /\
  nu d * frac 20 1 = frac 4 1 * frac 2 1 /\
  cfl_u d = frac 4 5 /\
  cfl_v d * frac 20 1 = frac 4 5 * of_nat 8.
Proof.
  apply (first_cell_relations 8 (frac 4 1) (frac 2 1) (frac 20 1) (frac 4 5)).
  unfold first_cell, pydiv. simpl. f_equal. f_equal; qc_compute.
Defined.

Lemma length_mesh (lx : Qc) (nx : nat) : length (mesh lx nx) = nx.
Proof.
  unfold mesh, linspace. now rewrite length_map, length_seq.
Qed.

Lemma mesh_nth (lx : Qc) (nx i : nat) :
  (i < nx)%nat ->
  nth i (mesh lx nx) 0 = of_nat i * (lx / of_nat nx) - lx / frac 2 1.
Proof.
  intros Hi. unfold mesh, linspace. rewrite nth_map_seq by exact Hi.
  assert (H2 : frac 2 1 = 1 + 1) by qc_compute. rewrite H2.
  field. repeat split; try discriminate. apply of_nat_not_zero. lia.
Qed.

(** The mesh and the spacing agree: consecutive mesh points are [dx]
    apart, for the [dx] of the configuration cell. *)
Theorem mesh_spacing (nx : nat) (lx u re cfl : Qc) (d : Derived) (i : nat) :
  first_cell nx lx u re cfl = OK d ->
  (i + 1 < nx)%nat ->
  nth (i + 1) (mesh lx nx) 0 - nth i (mesh lx nx) 0 = dx d.
Proof.
  intros Hd Hi.
  destruct (first_cell_inv _ _ _ _ _ _ Hd) as [Hnx [_ [_ [_ [-> _]]]]].
  rewrite !mesh_nth by lia. rewrite of_nat_succ.
  field; repeat split; (now apply of_nat_not_zero) || discriminate.
Qed.

Lemma mesh_spacing_witness :
  nth (2 + 1) (mesh (frac 4 1) 8) 0 - nth 2 (mesh (frac 4 1) 8) 0
  = dx (mk_derived (frac 1 2) (frac 2 5) (frac 1 5) (frac 4 5) (frac 8 25)).
Proof.
  apply (mesh_spacing 8 (frac 4 1) (frac 2 1) (frac 20 1) (frac 4 5)).
  - unfold first_cell, pydiv. simpl. f_equal. f_equal; qc_compute.
  - lia.
Defined.

(** The mesh covers the half-open domain: it has [nx] points, starts at
    [-lx/2], and every point lies in [[-lx/2, lx/2)]; the right end, which
    the periodic boundary identifies with the left one, is left out. *)
Theorem mesh_half_open (lx : Qc) (nx i : nat) :
  0 < lx ->
  (i < nx)%nat ->
  length (mesh lx nx) = nx /\
  nth 0 (mesh lx nx) 0 = - lx / frac 2 1 /\
  - lx / frac 2 1 <= nth i (mesh lx nx) 0 /\
  nth i (mesh lx nx) 0 < lx / frac 2 1.
Proof.
  intros Hlx Hi.
  assert (Hn : 0 < of_nat nx) by (apply of_nat_pos; lia).
  assert (Hn0 : of_nat nx <> 0) by (now apply Qclt_not_zero).
  assert (Ht : 0 < lx / of_nat nx) by (now apply Qcdiv_pos).
  split; [ apply length_mesh | ].
  split.
  { rewrite mesh_nth by lia.
    replace (of_nat 0) with (0 : Qc) by (symmetry; qc_compute).
    field; repeat split; (exact Hn0 || discriminate). }
  rewrite mesh_nth by exact Hi.
  assert (H2 : frac 2 1 = 1 + 1) by qc_compute. rewrite H2. split.
  - apply (proj2 (Qcle_minus_iff _ _)).
    replace (of_nat i * (lx / of_nat nx) - lx / (1 + 1) + - (- lx / (1 + 1)))
      with (of_nat i * (lx / of_nat nx))
      by (field; repeat split; (exact Hn0 || discriminate)).
    apply Qc_mult_nonneg; [ apply (of_Z_le 0); lia | now apply Qclt_le_weak ].
  - apply (proj2 (Qclt_minus_iff _ _)).
    replace (lx / (1 + 1) + - (of_nat i * (lx / of_nat nx) - lx / (1 + 1)))
      with ((of_nat nx + - of_nat i) * (lx / of_nat nx))
      by (field; repeat split; (exact Hn0 || discriminate)).
    apply Qcmult_pos; [ | exact Ht ].
    apply (proj1 (Qclt_minus_iff (of_nat i) (of_nat nx))). apply of_Z_lt. lia.
Qed.

Lemma mesh_half_open_witness :
  length (mesh (frac 4 1) 8) = 8%nat /\
  nth 0 (mesh (frac 4 1) 8) 0 = - frac 4 1 / frac 2 1 /\
  - frac 4 1 / frac 2 1 <= nth 7 (mesh (frac 4 1) 8) 0 /\
  nth 7 (mesh (frac 4 1) 8) 0 < frac 4 1 / frac 2 1.
Proof.
  apply (mesh_half_open (frac 4 1) 8 7); [ reflexivity | lia ].
Defined.

(** ** The plotting cell *)

Lemma for_each_plot (x : vector) (q : list vector) (nplot c a : nat) (fig : list curve) :
  (forall j, (a <= j < a + c)%nat ->
     (nplot + j * nplot + 1 < length q)%nat /\
     length (nth (nplot + j * nplot + 1) q []) = length x) ->
  for_each (map (fun j => (nplot + j * nplot)%nat) (seq a c))
    (fun i fig =>
       row <- getitem q (i + 1) ;;
       plot x row (step_label i) fig)
    fig
  = OK (fig ++ map (fun j => mk_curve x (nth (nplot + j * nplot + 1) q [])
                                      (step_label (nplot + j * nplot)))
                   (seq a c)).
Proof.
  revert a fig. induction c as [ | c IH ]; intros a fig H.
  - simpl. now rewrite app_nil_r.
  - simpl seq. simpl map. simpl for_each.
    destruct (H a) as [Hlt Hlen]; [ lia | ].
    rewrite getitem_nth by exact Hlt. simpl bind.
    unfold plot at 1. rewrite Hlen, Nat.eqb_refl. simpl bind.
    rewrite IH by (intros j Hj; apply H; lia).
    now rewrite <- app_assoc.
Qed.

Lemma range_count (nt nplot : nat) :
  (0 < nplot)%nat ->
  ((nt - nplot + nplot - 1) / nplot = (nt - 1) / nplot)%nat.
Proof.
  intros Hp. destruct (le_lt_dec nplot nt) as [Hle | Hlt].
  - f_equal. lia.
  - rewrite !Nat.div_small by lia. reflexivity.
Qed.

(** What the plotting cell draws from a series of [nt + 1] rows of the
    mesh size, for a positive [nplot]: it never runs past the array; the
    figure holds the initial condition followed by one curve for each
    multiple [i] of [nplot] below [nt], and the curve labelled [i] shows
    row [i + 1]. *)
Theorem plot_cell_curves (x qinit : vector) (q : list vector) (nt nplot : nat) :
  length qinit = length x ->
  length q = (nt + 1)%nat ->
  (forall i, (i <= nt)%nat -> length (nth i q []) = length x) ->
  (0 < nplot)%nat ->
  plot_cell x qinit q nt nplot
  = OK (mk_curve x qinit ic
        :: map (fun j => mk_curve x (nth (nplot + j * nplot + 1) q [])
                                  (step_label (nplot + j * nplot)))
               (seq 0 ((nt - 1) / nplot))).
Proof.
  intros Hqi Hq Hrows Hp. unfold plot_cell.
  unfold plot at 1. rewrite Hqi, Nat.eqb_refl. simpl bind.
  unfold range3. destruct (nplot =? 0)%nat eqn:E;
    [ apply Nat.eqb_eq in E; lia | ].
  simpl bind. rewrite range_count by exact Hp.
  rewrite for_each_plot; [ reflexivity | ].
  intros j [_ Hj]. simpl in Hj.
  assert (Hb : (nplot + j * nplot <= nt - 1)%nat).
  { pose proof (Nat.Div0.mul_div_le (nt - 1) nplot) as Hm.
    assert ((S j) * nplot <= (nt - 1) / nplot * nplot)%nat
      by (apply Nat.mul_le_mono_r; lia).
    simpl in H. lia. }
  assert (Hnt : (1 <= nt)%nat) by lia.
  split; [ lia | apply Hrows; lia ].
Qed.

Lemma plot_cell_curves_witness :
  plot_cell [0; 1] [1; 1] [[1; 1]; [frac 1 2; 1]; [0; 1]; [1; 0]; [0; 0]; [0; 0]] 5 2
  = OK (mk_curve [0; 1] [1; 1] ic
        :: map (fun j =>
                  mk_curve [0; 1]
                    (nth (2 + j * 2 + 1)
                       [[1; 1]; [frac 1 2; 1]; [0; 1]; [1; 0]; [0; 0]; [0; 0]] [])
                    (step_label (2 + j * 2)))
               (seq 0 ((5 - 1) / 2))).
Proof.
  apply (plot_cell_curves [0; 1] [1; 1]
           [[1; 1]; [frac 1 2; 1]; [0; 1]; [1; 0]; [0; 0]; [0; 0]] 5 2);
    try reflexivity; try lia.
  intros i Hi. do 6 (destruct i as [ | i ]; [ reflexivity | ]). lia.
Defined.
